(** * FrisPy: the coefficient model of a disc ([frispy/model.py])

    The module declares one dataclass, [Model], holding eleven aerodynamic
    parameters and five methods ([C_lift], [C_drag], [C_x], [C_y], [C_z])
    that turn kinematic scalars into force and torque scale factors, and
    nine subclasses that only give other default values to five of the
    parameters.

    The one function of the example script ([example2.py]), [get_edge],
    which computes the rim of the disc that the script draws, is embedded
    too, over the reals.

    The methods are written once, over an abstract carrier for Python's
    [float], in a small state-and-exception monad whose state is [self].
    Two interpretations of the carrier are given:
    - IEEE binary64 ([spec_float] with 53 bits of precision), the
      arithmetic the program runs on, together with the one place where
      CPython's float arithmetic raises instead of returning a value: the
      power operator. Statements about what a call returns, raises or
      compares to are made here, with the roundings, underflows and
      overflows of the machine;
    - exact real arithmetic ([R]), the reading in which a float is the
      real number it stands for. *)

From Stdlib Require Import ZArith List Bool Reals Lra Psatz.
From Stdlib Require Import Floats.SpecFloat.
From Stdlib Require Import Sorting.Permutation.
Import ListNotations.

(** ** Exceptions and results *)

Inductive exn : Type :=
| OverflowError
| AttributeError.

Inductive result (A : Type) : Type :=
| Ok (a : A)
| Raise (e : exn).

Arguments Ok {A} a.
Arguments Raise {A} e.

(** ** The arithmetic the module uses on floats

    [of_int] is the conversion of an [int] literal or operand, [np_pi] is
    [numpy.pi], and [pow2 x] is [x ** 2], the only operation of the module
    that can raise. [fdiv] only occurs in the class body ([4 * np.pi / 180])
    and in decimal literals, always with a non-zero literal divisor. *)

Class PyFloat (F : Type) : Type := {
  of_int : Z -> F;
  np_pi : F;
  fadd : F -> F -> F;
  fsub : F -> F -> F;
  fmul : F -> F -> F;
  fdiv : F -> F -> F;
  pow2 : F -> result F
}.

Declare Scope pyfloat_scope.
Delimit Scope pyfloat_scope with py.
Infix "+" := fadd : pyfloat_scope.
Infix "-" := fsub : pyfloat_scope.
Infix "*" := fmul : pyfloat_scope.
Infix "/" := fdiv : pyfloat_scope.

(** The decimal literal [m / 10^k], e.g. [dec 33 2] for [0.33] and
    [dec (-34) 6] for [-0.000034]. *)
Definition dec {F} `{PyFloat F} (m : Z) (k : nat) : F :=
  (of_int m / of_int (10 ^ Z.of_nat k))%py.

(** ** The dataclass *)

Module Field.
Inductive t : Type :=
| PL0 | PLa | PD0 | PDa | PTxwx | PTxwz | PTy0 | PTya | PTywy | PTzwz
| alpha_0.

Definition all : list t :=
  [PL0; PLa; PD0; PDa; PTxwx; PTxwz; PTy0; PTya; PTywy; PTzwz; alpha_0].
End Field.

Record Model (F : Type) : Type := mkModel {
  PL0 : F;
  PLa : F;
  PD0 : F;
  PDa : F;
  PTxwx : F;
  PTxwz : F;
  PTy0 : F;
  PTya : F;
  PTywy : F;
  PTzwz : F;
  alpha_0 : F
}.

Arguments mkModel {F}.
Arguments PL0 {F} _.
Arguments PLa {F} _.
Arguments PD0 {F} _.
Arguments PDa {F} _.
Arguments PTxwx {F} _.
Arguments PTxwz {F} _.
Arguments PTy0 {F} _.
Arguments PTya {F} _.
Arguments PTywy {F} _.
Arguments PTzwz {F} _.
Arguments alpha_0 {F} _.

Definition get_field {F} (f : Field.t) (m : Model F) : F :=
  match f with
  | Field.PL0 => PL0 m
  | Field.PLa => PLa m
  | Field.PD0 => PD0 m
  | Field.PDa => PDa m
  | Field.PTxwx => PTxwx m
  | Field.PTxwz => PTxwz m
  | Field.PTy0 => PTy0 m
  | Field.PTya => PTya m
  | Field.PTywy => PTywy m
  | Field.PTzwz => PTzwz m
  | Field.alpha_0 => alpha_0 m
  end.

Definition set_field {F} (f : Field.t) (v : F) (m : Model F) : Model F :=
  match f with
  | Field.PL0 =>
      mkModel v (PLa m) (PD0 m) (PDa m) (PTxwx m) (PTxwz m) (PTy0 m)
        (PTya m) (PTywy m) (PTzwz m) (alpha_0 m)
  | Field.PLa =>
      mkModel (PL0 m) v (PD0 m) (PDa m) (PTxwx m) (PTxwz m) (PTy0 m)
        (PTya m) (PTywy m) (PTzwz m) (alpha_0 m)
  | Field.PD0 =>
      mkModel (PL0 m) (PLa m) v (PDa m) (PTxwx m) (PTxwz m) (PTy0 m)
        (PTya m) (PTywy m) (PTzwz m) (alpha_0 m)
  | Field.PDa =>
      mkModel (PL0 m) (PLa m) (PD0 m) v (PTxwx m) (PTxwz m) (PTy0 m)
        (PTya m) (PTywy m) (PTzwz m) (alpha_0 m)
  | Field.PTxwx =>
      mkModel (PL0 m) (PLa m) (PD0 m) (PDa m) v (PTxwz m) (PTy0 m)
        (PTya m) (PTywy m) (PTzwz m) (alpha_0 m)
  | Field.PTxwz =>
      mkModel (PL0 m) (PLa m) (PD0 m) (PDa m) (PTxwx m) v (PTy0 m)
        (PTya m) (PTywy m) (PTzwz m) (alpha_0 m)
  | Field.PTy0 =>
      mkModel (PL0 m) (PLa m) (PD0 m) (PDa m) (PTxwx m) (PTxwz m) v
        (PTya m) (PTywy m) (PTzwz m) (alpha_0 m)
  | Field.PTya =>
      mkModel (PL0 m) (PLa m) (PD0 m) (PDa m) (PTxwx m) (PTxwz m) (PTy0 m)
        v (PTywy m) (PTzwz m) (alpha_0 m)
  | Field.PTywy =>
      mkModel (PL0 m) (PLa m) (PD0 m) (PDa m) (PTxwx m) (PTxwz m) (PTy0 m)
        (PTya m) v (PTzwz m) (alpha_0 m)
  | Field.PTzwz =>
      mkModel (PL0 m) (PLa m) (PD0 m) (PDa m) (PTxwx m) (PTxwz m) (PTy0 m)
        (PTya m) (PTywy m) v (alpha_0 m)
  | Field.alpha_0 =>
      mkModel (PL0 m) (PLa m) (PD0 m) (PDa m) (PTxwx m) (PTxwz m) (PTy0 m)
        (PTya m) (PTywy m) (PTzwz m) v
  end.

(** ** Method bodies run in a state-and-exception monad over [self]

    A computation receives the fields of [self] and gives back a result or
    an exception, together with the fields as it leaves them. *)

Section Methods.
Context {F : Type} `{PyFloat F}.

Definition Py (A : Type) : Type := Model F -> result A * Model F.

Definition ret {A} (a : A) : Py A := fun self => (Ok a, self).

Definition bind {A B} (c : Py A) (k : A -> Py B) : Py B :=
  fun self =>
    match c self with
    | (Ok a, self') => k a self'
    | (Raise e, self') => (Raise e, self')
    end.

Definition raise {A} (e : exn) : Py A := fun self => (Raise e, self).

(** [self.f] *)
Definition getattr (f : Field.t) : Py F :=
  fun self => (Ok (get_field f self), self).

(** [self.f = v] *)
Definition setattr (f : Field.t) (v : F) : Py unit :=
  fun self => (Ok tt, set_field f v self).

(** An operation on values that may raise. *)
Definition eval {A} (r : result A) : Py A := fun self => (r, self).

Notation "x <- c ;; k" := (bind c (fun x => k))
  (at level 61, c at next level, right associativity).

(** [return self.PL0 + self.PLa * alpha] *)
Definition C_lift (alpha : F) : Py F :=
  pl0 <- getattr Field.PL0 ;;
  pla <- getattr Field.PLa ;;
  ret (pl0 + pla * alpha)%py.

(** [return self.PD0 + self.PDa * (alpha - self.alpha_0) ** 2] *)
Definition C_drag (alpha : F) : Py F :=
  pd0 <- getattr Field.PD0 ;;
  pda <- getattr Field.PDa ;;
  a0 <- getattr Field.alpha_0 ;;
  sq <- eval (pow2 (alpha - a0)%py) ;;
  ret (pd0 + pda * sq)%py.

(** [return self.PTxwx * wx + self.PTxwz * wz] *)
Definition C_x (wx wz : F) : Py F :=
  ptxwx <- getattr Field.PTxwx ;;
  ptxwz <- getattr Field.PTxwz ;;
  ret (ptxwx * wx + ptxwz * wz)%py.

(** [return self.PTy0 + self.PTywy * wy + self.PTya * alpha] *)
Definition C_y (alpha wy : F) : Py F :=
  pty0 <- getattr Field.PTy0 ;;
  ptywy <- getattr Field.PTywy ;;
  ptya <- getattr Field.PTya ;;
  ret (pty0 + ptywy * wy + ptya * alpha)%py.

(** [return self.PTzwz * wz] *)
Definition C_z (wz : F) : Py F :=
  ptzwz <- getattr Field.PTzwz ;;
  ret (ptzwz * wz)%py.
End Methods.

(** ** The class hierarchy

    [Cls.Model] is the base dataclass; the nine others are declared as
    [class XModel(Model)] and their bodies consist of annotated field
    assignments only. *)

Module Cls.
Inductive t : Type :=
| Model
| JankieModel
| HummelModel
| AviarModel
| BuzzModel
| RocModel
| FlickModel
| StormModel
| WraithModel
| QuarterModel.

Definition presets : list t :=
  [JankieModel; HummelModel; AviarModel; BuzzModel; RocModel; FlickModel;
   StormModel; WraithModel; QuarterModel].

(** Method resolution order, up to [object] (which has none of the
    attributes looked up here). *)
Definition mro (k : t) : list t :=
  match k with
  | Model => [Model]
  | _ => [k; Model]
  end.
End Cls.

(** A call of one of the five methods, with its arguments. *)
Inductive call (F : Type) : Type :=
| Call_C_lift (alpha : F)
| Call_C_drag (alpha : F)
| Call_C_x (wx wz : F)
| Call_C_y (alpha wy : F)
| Call_C_z (wz : F).

Arguments Call_C_lift {F} alpha.
Arguments Call_C_drag {F} alpha.
Arguments Call_C_x {F} wx wz.
Arguments Call_C_y {F} alpha wy.
Arguments Call_C_z {F} wz.

Section Classes.
Context {F : Type} `{PyFloat F}.

(** The field defaults of the body of [class Model]. *)
Definition Model_defaults : Model F :=
  {| PL0 := dec 33 2;
     PLa := dec 19 1;
     PD0 := dec 18 2;
     PDa := dec 69 2;
     PTxwx := dec (-13) 3;
     PTxwz := dec (-17) 4;
     PTy0 := dec (-82) 3;
     PTya := dec 43 2;
     PTywy := dec (-14) 3;
     PTzwz := dec (-34) 6;
     alpha_0 := (of_int 4 * np_pi / of_int 180)%py |}.

(** The fields a subclass body assigns again, in source order. *)
Definition overrides (k : Cls.t) : list (Field.t * F) :=
  match k with
  | Cls.Model => []
  | Cls.JankieModel =>
      [(Field.PL0, of_int 999); (Field.PLa, of_int 999);
       (Field.PD0, of_int 999); (Field.PTy0, of_int (-999));
       (Field.PTya, of_int 999)]
  | Cls.HummelModel =>
      [(Field.PL0, dec 33 2); (Field.PLa, dec 19 1);
       (Field.PD0, dec 18 2); (Field.PTy0, dec (-82) 3);
       (Field.PTya, dec 43 2)]
  | Cls.AviarModel =>
      [(Field.PL0, dec 152 3); (Field.PLa, dec 44 3);
       (Field.PD0, dec 83 3); (Field.PTy0, dec (-18) 3);
       (Field.PTya, dec 2 3)]
  | Cls.BuzzModel =>
      [(Field.PL0, dec 99 3); (Field.PLa, dec 41 3);
       (Field.PD0, dec 61 3); (Field.PTy0, dec (-33) 3);
       (Field.PTya, dec 4 3)]
  | Cls.RocModel =>
      [(Field.PL0, dec 53 3); (Field.PLa, dec 43 3);
       (Field.PD0, dec 67 3); (Field.PTy0, dec (-15) 3);
       (Field.PTya, dec 3 3)]
  | Cls.FlickModel =>
      [(Field.PL0, dec 100 3); (Field.PLa, dec 38 3);
       (Field.PD0, dec 76 3); (Field.PTy0, dec (-7) 3);
       (Field.PTya, dec 8 3)]
  | Cls.StormModel =>
      [(Field.PL0, dec 107 3); (Field.PLa, dec 45 3);
       (Field.PD0, dec 57 3); (Field.PTy0, dec (-26) 3);
       (Field.PTya, dec 4 3)]
  | Cls.WraithModel =>
      [(Field.PL0, dec 143 3); (Field.PLa, dec 40 3);
       (Field.PD0, dec 55 3); (Field.PTy0, dec (-20) 3);
       (Field.PTya, dec 6 3)]
  | Cls.QuarterModel =>
      [(Field.PL0, dec 138 3); (Field.PLa, dec 39 3);
       (Field.PD0, dec 65 3); (Field.PTy0, dec (-38) 3);
       (Field.PTya, dec 5 3)]
  end.

Definition assign (m : Model F) (fv : Field.t * F) : Model F :=
  set_field (fst fv) (snd fv) m.

(** The generated [__init__]: every field takes its default, the
    subclass's where it gives one and the base's otherwise, and then the
    keyword arguments of the constructor call. *)
Definition init (k : Cls.t) (kwargs : list (Field.t * F)) : Model F :=
  fold_left assign kwargs (fold_left assign (overrides k) Model_defaults).

(** [k()] *)
Definition new (k : Cls.t) : Model F := init k [].

(** The five methods of the body of [class Model]. *)
Definition Model_methods (c : call F) : Py (F:=F) F :=
  match c with
  | Call_C_lift alpha => C_lift alpha
  | Call_C_drag alpha => C_drag alpha
  | Call_C_x wx wz => C_x wx wz
  | Call_C_y alpha wy => C_y alpha wy
  | Call_C_z wz => C_z wz
  end.

(** The methods a class body defines: all five for [Model], none for
    the subclasses. *)
Definition defines (k : Cls.t) (c : call F) : option (Py (F:=F) F) :=
  match k with
  | Cls.Model => Some (Model_methods c)
  | _ => None
  end.

Fixpoint lookup (l : list Cls.t) (c : call F) : option (Py (F:=F) F) :=
  match l with
  | [] => None
  | k :: l' =>
      match defines k c with
      | Some body => Some body
      | None => lookup l' c
      end
  end.

(** [self.method(args)] on an instance of class [k] whose fields are
    [self]. *)
Definition invoke (k : Cls.t) (c : call F) : Py (F:=F) F :=
  match lookup (Cls.mro k) c with
  | Some body => body
  | None => raise AttributeError
  end.

Definition value {A} (p : result A * Model F) : result A := fst p.
Definition self_after {A} (p : result A * Model F) : Model F := snd p.
End Classes.

(** ** Exact real arithmetic

    The reading of the module in which a float is the real number it
    stands for: literals denote their decimal value, [np.pi] is [PI], and
    no operation overflows. *)

#[export] Instance real_float : PyFloat R := {
  of_int := IZR;
  np_pi := PI;
  fadd := Rplus;
  fsub := Rminus;
  fmul := Rmult;
  fdiv := Rdiv;
  pow2 := fun x => Ok (x ^ 2)%R
}.

(** ** IEEE binary64 arithmetic, as CPython performs it *)

Module B64.
Definition prec : Z := 53.
Definition emax : Z := 1024.

Definition t : Type := spec_float.

Definition of_Z (z : Z) : t := binary_normalize prec emax z 0 false.

(** [numpy.pi], i.e. [0x1.921fb54442d18p+1]. *)
Definition pi : t := S754_finite false 0x1921fb54442d18 (-51).

Definition add : t -> t -> t := SFadd prec emax.
Definition sub : t -> t -> t := SFsub prec emax.
Definition mul : t -> t -> t := SFmul prec emax.
Definition div : t -> t -> t := SFdiv prec emax.

(** [x ** 2] on a float ([float_pow] of CPython with exponent [2.0]):
    a NaN is returned as it is, an infinity gives [+inf], a zero gives
    [+0.0], and a finite non-zero [x] goes to the C library's
    [pow(fabs(x), 2.0)]; when that overflows to [HUGE_VAL] the
    interpreter raises [OverflowError]. The library's result is taken to
    be the correctly rounded square. *)
Definition pow_2 (x : t) : result t :=
  match x with
  | S754_nan => Ok S754_nan
  | S754_infinity _ => Ok (S754_infinity false)
  | S754_zero _ => Ok (S754_zero false)
  | S754_finite _ m e =>
      match mul (S754_finite false m e) (S754_finite false m e) with
      | S754_infinity _ => Raise OverflowError
      | r => Ok r
      end
  end.

Definition is_finite (x : t) : bool :=
  match x with
  | S754_zero _ | S754_finite _ _ _ => true
  | _ => false
  end.

(** The square of a finite [x] is beyond the largest double. *)
Definition square_overflows (x : t) : bool :=
  match x with
  | S754_finite _ m e =>
      match mul (S754_finite false m e) (S754_finite false m e) with
      | S754_infinity _ => true
      | _ => false
      end
  | _ => false
  end.
End B64.

#[export] Instance binary64_float : PyFloat B64.t := {
  of_int := B64.of_Z;
  np_pi := B64.pi;
  fadd := B64.add;
  fsub := B64.sub;
  fmul := B64.mul;
  fdiv := B64.div;
  pow2 := B64.pow_2
}.

(** ** The coefficient formulas as the specification words them

    These follow the specification (section 4.1), not the code; the
    theorems below compare the methods with them. *)

Module Spec.
Local Open Scope R_scope.

Definition lift_coefficient (m : Model R) (alpha : R) : R :=
  PL0 m + PLa m * alpha.

Definition drag_coefficient (m : Model R) (alpha : R) : R :=
  PD0 m + PDa m * Rsqr (alpha - alpha_0 m).

Definition x_torque_coefficient (m : Model R) (wx wz : R) : R :=
  PTxwx m * wx + PTxwz m * wz.

Definition y_torque_coefficient (m : Model R) (alpha wy : R) : R :=
  PTy0 m + PTywy m * wy + PTya m * alpha.

Definition z_torque_coefficient (m : Model R) (wz : R) : R :=
  PTzwz m * wz.

Definition coefficient (m : Model R) (c : call R) : R :=
  match c with
  | Call_C_lift alpha => lift_coefficient m alpha
  | Call_C_drag alpha => drag_coefficient m alpha
  | Call_C_x wx wz => x_torque_coefficient m wx wz
  | Call_C_y alpha wy => y_torque_coefficient m alpha wy
  | Call_C_z wz => z_torque_coefficient m wz
  end.
End Spec.

(** ** Which attributes each method body loads from [self] *)

Definition reads {F} (c : call F) : list Field.t :=
  match c with
  | Call_C_lift _ => [Field.PL0; Field.PLa]
  | Call_C_drag _ => [Field.PD0; Field.PDa; Field.alpha_0]
  | Call_C_x _ _ => [Field.PTxwx; Field.PTxwz]
  | Call_C_y _ _ => [Field.PTy0; Field.PTywy; Field.PTya]
  | Call_C_z _ => [Field.PTzwz]
  end.

(** The keyword names of a constructor call. *)
Definition keywords {F} (kwargs : list (Field.t * F)) : list Field.t :=
  map fst kwargs.

(** ** Classes of binary64 values *)

Definition is_nan (x : B64.t) : bool :=
  match x with
  | S754_nan => true
  | _ => false
  end.

Definition is_inf (x : B64.t) : bool :=
  match x with
  | S754_infinity _ => true
  | _ => false
  end.

(** A finite float above zero. *)
Definition is_pos_finite (x : B64.t) : bool :=
  match x with
  | S754_finite false _ _ => true
  | _ => false
  end.

(** The arguments of a call. *)
Definition arguments {F} (c : call F) : list F :=
  match c with
  | Call_C_lift alpha => [alpha]
  | Call_C_drag alpha => [alpha]
  | Call_C_x wx wz => [wx; wz]
  | Call_C_y alpha wy => [alpha; wy]
  | Call_C_z wz => [wz]
  end.

(** The sign bit of a float (clear for NaN). *)
Definition sign_bit (x : B64.t) : bool :=
  match x with
  | S754_zero s | S754_infinity s | S754_finite s _ _ => s
  | S754_nan => false
  end.

(** [x] is a zero, a finite number or an infinity with sign bit [s]. *)
Definition signed (s : bool) (x : B64.t) : bool :=
  match x with
  | S754_zero s' | S754_infinity s' | S754_finite s' _ _ => Bool.eqb s s'
  | S754_nan => false
  end.

(** A finite float that is not below zero: a zero of either sign or a
    positive finite float. *)
Definition is_nonneg_finite (x : B64.t) : bool :=
  match x with
  | S754_zero _ | S754_finite false _ _ => true
  | _ => false
  end.

(** NaN, a zero of either sign, a positive finite float or [+inf]: what
    the square and the products of the drag formula can be. *)
Definition not_negative (x : B64.t) : bool :=
  match x with
  | S754_nan | S754_zero _ | S754_finite false _ _
  | S754_infinity false => true
  | _ => false
  end.

(** A float as CPython holds it: the mantissa of a finite one is
    normalised and its exponent in range. *)
Definition well_formed (x : B64.t) : bool := valid_binary B64.prec B64.emax x.

(** The comparisons [x < y] and [x <= y] of two floats, false as soon as
    one of them is NaN. *)
Definition float_lt (x y : B64.t) : bool := SFltb x y.
Definition float_le (x y : B64.t) : bool := SFleb x y.

(** The float with mantissa [m] and exponent [e] that closes a rounding:
    a zero for [m = 0], an infinity beyond the largest exponent. *)
Definition finish (sx : bool) (m e : Z) : B64.t :=
  match m with
  | Z0 => S754_zero sx
  | Zpos p =>
      if (e <=? B64.emax - B64.prec)%Z then S754_finite sx p e
      else S754_infinity sx
  | Zneg _ => S754_nan
  end.

(** ** The disc edge drawn by the example script ([example2.py])

    [get_edge] is the one function the script defines. It is read over the
    reals, with NumPy's array operations on lists: [np.linspace] by its
    contract ([num] evenly spaced samples from [start] to [stop], both
    included), elementwise products, and the transposition of three
    columns into rows. *)

Module Example2.
Local Open Scope R_scope.

Inductive np_result (A : Type) : Type :=
| Array (a : A)
| ValueError.

Arguments Array {A} a.
Arguments ValueError {A}.

Definition vec3 : Type := (R * R * R)%type.

(** [np.arange(0, num)] as floats. *)
Definition arange (num : nat) : list R := map INR (seq 0 num).

(** Assignment to the last element, [y[-1] = v], of a non-empty array. *)
Definition set_last (y : list R) (v : R) : list R :=
  match y with
  | [] => []
  | _ :: _ => removelast y ++ [v]
  end.

(** [np.linspace(start, stop, num)]: a negative [num] is refused; one
    sample is [start]; otherwise the step is [(stop - start) / (num - 1)]
    and the last sample is set to [stop] itself. *)
Definition linspace (start stop : R) (num : Z) : np_result (list R) :=
  if (num <? 0)%Z then ValueError
  else
    let n := Z.to_nat num in
    let div := (n - 1)%nat in
    let delta := stop - start in
    let y :=
      if (0 <? div)%nat
      then map (fun i => i * (delta / INR div) + start) (arange n)
      else map (fun i => i * delta + start) (arange n) in
    Array (if (1 <? n)%nat then set_last y stop else y).

(** [np.ones(n)] and [np.zeros(n)], for [n] already known not negative. *)
Definition ones (n : Z) : list R := repeat 1 (Z.to_nat n).
Definition zeros (n : Z) : list R := repeat 0 (Z.to_nat n).

(** Elementwise product of two arrays of one shape. *)
Definition times (a b : list R) : list R :=
  map (fun p => fst p * snd p) (combine a b).

(** [np.array([x, y, z]).T]: the rows of the array whose columns are
    [x], [y] and [z]. *)
Definition rows (x y z : list R) : list vec3 :=
  map (fun p => (fst (fst p), snd (fst p), snd p)) (combine (combine x y) z).

(** [def get_edge(radii, n=20)] *)
Definition get_edge (radii : R) (n : Z) : np_result (list vec3) :=
  match linspace 0 (2 * PI) n with
  | ValueError => ValueError
  | Array alpha =>
      let r := map (fun o => radii * o) (ones n) in
      let x := times r (map cos alpha) in
      let y := times r (map sin alpha) in
      let z := zeros n in
      Array (rows x y z)
  end.

End Example2.

(** ** Particular instances and inputs used below *)

(** [Model(PDa=-1)]: the base class with a negative quadratic drag term. *)
Definition Model_negative_PDa : Model R :=
  init Cls.Model [(Field.PDa, of_int (-1))].

(** The same instance, [Model(PDa=-1)], on the floats of the machine. *)
Definition Model_negative_PDa_float : Model B64.t :=
  init Cls.Model [(Field.PDa, of_int (-1))].

(** The float [2.0 ** 600]. *)
Definition two_pow_600 : B64.t := S754_finite false (2 ^ 52) 548.

(** All eleven parameters of an instance are finite floats. *)
Definition finite_parameters (m : Model B64.t) : bool :=
  forallb (fun f => B64.is_finite (get_field f m)) Field.all.

(** The float [-(2.0 ** 600)]. *)
Definition minus_two_pow_600 : B64.t := S754_finite true (2 ^ 52) 548.

(** The float [2.0 ** -53], half the gap between [1.0] and the next
    float. *)
Definition two_pow_minus_53 : B64.t := S754_finite false (2 ^ 52) (-105).


(** [Model(PD0=0.0, PDa=1.0, alpha_0=1.0)] *)
Definition Model_unit_drag : Model B64.t :=
  init Cls.Model
    [(Field.PD0, of_int 0); (Field.PDa, of_int 1); (Field.alpha_0, of_int 1)].

(** ** Proof automation *)

(** Runs a method body: unfolds the monad and the field accessors. *)
Ltac run_method :=
  unfold value, self_after, invoke, Model_methods, C_lift, C_drag, C_x,
    C_y, C_z, bind, getattr, eval, ret, raise;
  cbn [Cls.mro lookup defines get_field fst snd].

(** Evaluates the defaults of a class down to decimal fractions. *)
Ltac class_defaults :=
  unfold Model_negative_PDa, new, init;
  cbn [overrides fold_left assign set_field fst snd Model_defaults
       PL0 PLa PD0 PDa PTxwx PTxwz PTy0 PTya PTywy PTzwz alpha_0];
  unfold dec;
  repeat match goal with
    | |- context [Z.pow ?a (Z.of_nat ?n)] =>
        let v := eval vm_compute in (Z.pow a (Z.of_nat n)) in
        change (Z.pow a (Z.of_nat n)) with v
    end;
  cbn [of_int np_pi fadd fsub fmul fdiv real_float].

(** * Properties *)

(** ** What a call runs, for any float arithmetic *)

Section Resolution.
Context {F : Type} `{PyFloat F}.

Variable self : Model F.

Lemma C_lift_runs (alpha : F) :
  C_lift alpha self = (Ok (PL0 self + PLa self * alpha)%py, self).
Proof. reflexivity. Qed.

(** [C_drag] returns when the power does, and raises what it raises. *)
Lemma C_drag_runs (alpha : F) :
  C_drag alpha self =
  (match pow2 (alpha - alpha_0 self)%py with
   | Ok sq => Ok (PD0 self + PDa self * sq)%py
   | Raise e => Raise e
   end, self).
Proof. run_method. destruct (pow2 _); reflexivity. Qed.

Lemma C_x_runs (wx wz : F) :
  C_x wx wz self = (Ok (PTxwx self * wx + PTxwz self * wz)%py, self).
Proof. reflexivity. Qed.

Lemma C_y_runs (alpha wy : F) :
  C_y alpha wy self =
  (Ok (PTy0 self + PTywy self * wy + PTya self * alpha)%py, self).
Proof. reflexivity. Qed.

Lemma C_z_runs (wz : F) :
  C_z wz self = (Ok (PTzwz self * wz)%py, self).
Proof. reflexivity. Qed.

(** Whatever the class of the instance, a call runs the body written in
    [class Model]. *)
Lemma invoke_Model_methods (k : Cls.t) (c : call F) :
  invoke k c = Model_methods c.
Proof. destruct k; reflexivity. Qed.

(** A call leaves every field of [self] as it was, also when it raises. *)
Lemma invoke_leaves_self (k : Cls.t) (c : call F) :
  self_after (invoke k c self) = self.
Proof.
  rewrite invoke_Model_methods.
  destruct c; cbn [Model_methods];
    rewrite ?C_lift_runs, ?C_drag_runs, ?C_x_runs, ?C_y_runs, ?C_z_runs;
    reflexivity.
Qed.

(** The four methods without a power always return. *)
Lemma invoke_returns_without_pow (k : Cls.t) (c : call F) :
  (forall alpha, c <> Call_C_drag alpha) ->
  exists v, value (invoke k c self) = Ok v.
Proof.
  intros Hc. rewrite invoke_Model_methods.
  destruct c as [alpha | alpha | wx wz | alpha wy | wz];
    cbn [Model_methods].
  - rewrite C_lift_runs. eexists; reflexivity.
  - destruct (Hc alpha eq_refl).
  - rewrite C_x_runs. eexists; reflexivity.
  - rewrite C_y_runs. eexists; reflexivity.
  - rewrite C_z_runs. eexists; reflexivity.
Qed.

Lemma invoke_C_drag (k : Cls.t) (alpha : F) :
  value (invoke k (Call_C_drag alpha) self) =
  match pow2 (alpha - alpha_0 self)%py with
  | Ok sq => Ok (PD0 self + PDa self * sq)%py
  | Raise e => Raise e
  end.
Proof.
  rewrite invoke_Model_methods. cbn [Model_methods].
  now rewrite C_drag_runs.
Qed.
End Resolution.

(** ** The lift formula and the preset subclasses, for any float arithmetic *)

Section AnyArithmetic.
Context {F : Type} `{PyFloat F}.

(** C3. For every model instance and every angle of attack [alpha],
    [C_lift] returns exactly [PL0 + PLa * alpha], the sum and the product
    being those of the arithmetic at hand (the reals, or the floats of
    the machine): it is affine in [alpha] with intercept [PL0] and slope
    [PLa]. *)
Theorem C_lift_is_affine (k : Cls.t) (self : Model F) (alpha : F) :
  value (invoke k (Call_C_lift alpha) self) =
  Ok (PL0 self + PLa self * alpha)%py.
Proof.
  rewrite invoke_Model_methods. cbn [Model_methods].
  rewrite C_lift_runs. reflexivity.
Qed.

(** C7. Every named preset (Jankie, Hummel, Aviar, Buzz, Roc, Flick,
    Storm, Wraith, Quarter) defines no method of its own, and a call of
    [C_lift], [C_drag], [C_x], [C_y] or [C_z] on one of its instances runs
    the method of the base [Model] on the instance's own parameters: same
    result, same exception if any, same fields afterwards. The presets
    differ in parameter values only. *)
Theorem presets_share_Model_methods :
  Forall (fun k : Cls.t =>
            forall (self : Model F) (c : call F),
              defines k c = None /\
              invoke k c self = invoke Cls.Model c self /\
              invoke k c self = Model_methods c self)
         Cls.presets.
Proof.
  repeat constructor; rewrite ?invoke_Model_methods; reflexivity.
Qed.
End AnyArithmetic.

Section Defaults.
Context {F : Type} `{PyFloat F}.

Lemma untouched_defaults (k : Cls.t) :
  PDa (new k) = PDa (new Cls.Model) /\
  PTxwx (new k) = PTxwx (new Cls.Model) /\
  PTxwz (new k) = PTxwz (new Cls.Model) /\
  PTywy (new k) = PTywy (new Cls.Model) /\
  PTzwz (new k) = PTzwz (new Cls.Model) /\
  alpha_0 (new k) = alpha_0 (new Cls.Model).
Proof. destruct k; repeat split. Qed.

(** C9. Every preset subclass assigns only [PL0], [PLa], [PD0], [PTy0]
    and [PTya], so [PDa], [PTxwx], [PTxwz], [PTywy], [PTzwz] and
    [alpha_0] keep the defaults of the base [Model]; hence [C_x] and
    [C_z] return the same values on the default instances of all ten
    classes, and the default [HummelModel] has the very parameters of the
    default [Model]. *)
Theorem presets_keep_base_defaults :
  Forall (fun k : Cls.t =>
            map fst (overrides k) =
            [Field.PL0; Field.PLa; Field.PD0; Field.PTy0; Field.PTya])
         Cls.presets
  /\ (forall k : Cls.t,
        Forall (fun f : Field.t =>
                  get_field f (new k) = get_field f (new Cls.Model))
               [Field.PDa; Field.PTxwx; Field.PTxwz; Field.PTywy;
                Field.PTzwz; Field.alpha_0])
  /\ (forall (k k' : Cls.t) (wx wz : F),
        value (invoke k (Call_C_x wx wz) (new k)) =
        value (invoke k' (Call_C_x wx wz) (new k')))
  /\ (forall (k k' : Cls.t) (wz : F),
        value (invoke k (Call_C_z wz) (new k)) =
        value (invoke k' (Call_C_z wz) (new k')))
  /\ new Cls.HummelModel = new Cls.Model.
Proof.
  split; [repeat constructor |].
  split.
  { intros k. destruct (untouched_defaults k) as (? & ? & ? & ? & ? & ?).
    repeat constructor; assumption. }
  split; [| split; [| reflexivity]].
  - intros k k' wx wz. rewrite !invoke_Model_methods. run_method.
    destruct (untouched_defaults k) as (_ & -> & -> & _).
    destruct (untouched_defaults k') as (_ & -> & -> & _).
    reflexivity.
  - intros k k' wz. rewrite !invoke_Model_methods. run_method.
    destruct (untouched_defaults k) as (_ & _ & _ & _ & -> & _).
    destruct (untouched_defaults k') as (_ & _ & _ & _ & -> & _).
    reflexivity.
Qed.
End Defaults.

(** ** Construction with keyword arguments, for any float arithmetic *)

Section Construction.
Context {F : Type} `{PyFloat F}.

Lemma get_set_same (f : Field.t) (v : F) (m : Model F) :
  get_field f (set_field f v m) = v.
Proof. destruct f; reflexivity. Qed.

Lemma get_set_other (f g : Field.t) (v : F) (m : Model F) :
  f <> g -> get_field f (set_field g v m) = get_field f m.
Proof. intros Hfg. destruct f, g; try reflexivity; now destruct Hfg. Qed.

Lemma set_set_swap (f g : Field.t) (v w : F) (m : Model F) :
  f <> g ->
  set_field f v (set_field g w m) = set_field g w (set_field f v m).
Proof. intros Hfg. destruct f, g; try reflexivity; now destruct Hfg. Qed.

Lemma assign_all_untouched (f : Field.t) (kwargs : list (Field.t * F)) :
  forall m : Model F,
    ~ In f (keywords kwargs) ->
    get_field f (fold_left assign kwargs m) = get_field f m.
Proof.
  induction kwargs as [| [g w] kwargs IH]; intros m Hf; [reflexivity |].
  cbn [fold_left]. rewrite IH.
  - apply get_set_other. intros ->. apply Hf. now left.
  - intros Hin. apply Hf. now right.
Qed.

Lemma assign_all_given (f : Field.t) (v : F) (kwargs : list (Field.t * F)) :
  forall m : Model F,
    NoDup (keywords kwargs) -> In (f, v) kwargs ->
    get_field f (fold_left assign kwargs m) = v.
Proof.
  induction kwargs as [| [g w] kwargs IH]; intros m Hnd Hin;
    [destruct Hin |].
  cbn [keywords map fst] in Hnd. inversion Hnd as [| ? ? Hg Hnd']; subst.
  cbn [fold_left]. destruct Hin as [Heq | Hin].
  - injection Heq as -> ->. rewrite assign_all_untouched by exact Hg.
    apply get_set_same.
  - now apply IH.
Qed.

(** A constructor call [k(f1=v1, ..., fn=vn)] with distinct keywords
    gives an instance whose named parameters are the values passed and
    whose other parameters are the defaults of class [k]. *)
Theorem init_takes_keywords_and_defaults
    (k : Cls.t) (kwargs : list (Field.t * F)) :
  NoDup (keywords kwargs) ->
  (forall (f : Field.t) (v : F),
     In (f, v) kwargs -> get_field f (init k kwargs) = v)
  /\ (forall f : Field.t,
        ~ In f (keywords kwargs) ->
        get_field f (init k kwargs) = get_field f (new k)).
Proof.
  intros Hnd. split.
  - intros f v Hin. now apply assign_all_given.
  - intros f Hf. now apply assign_all_untouched.
Qed.

Lemma assign_all_permuted (kw kw' : list (Field.t * F)) :
  Permutation kw kw' ->
  NoDup (keywords kw) ->
  forall m : Model F, fold_left assign kw m = fold_left assign kw' m.
Proof.
  induction 1 as [| [f v] l l' Hperm IH | [f v] [g w] l
                  | l l' l'' Hp1 IH1 Hp2 IH2]; intros Hnd m.
  - reflexivity.
  - cbn [fold_left]. apply IH. now inversion Hnd.
  - cbn [fold_left]. unfold assign at 2 3 5 6. cbn [fst snd].
    rewrite set_set_swap; [reflexivity |].
    intros ->. inversion Hnd as [| ? ? Hin _]. apply Hin. now left.
  - rewrite IH1 by exact Hnd. apply IH2.
    refine (Permutation_NoDup _ Hnd).
    unfold keywords. now apply Permutation_map.
Qed.

(** The order in which distinct keyword arguments are written does not
    matter: two constructor calls with the same keywords in another order
    give equal instances. *)
Theorem init_keyword_order_irrelevant
    (k : Cls.t) (kwargs kwargs' : list (Field.t * F)) :
  Permutation kwargs kwargs' ->
  NoDup (keywords kwargs) ->
  init k kwargs = init k kwargs'.
Proof. intros Hperm Hnd. unfold init. now apply assign_all_permuted. Qed.

(** The result of a call depends only on the parameters its body loads:
    assigning any other attribute of [self] leaves the result unchanged
    ([C_lift] reads [PL0] and [PLa]; [C_drag] reads [PD0], [PDa] and
    [alpha_0]; [C_x] reads [PTxwx] and [PTxwz]; [C_y] reads [PTy0],
    [PTywy] and [PTya]; [C_z] reads [PTzwz]). *)
Theorem result_depends_on_loaded_fields_only
    (k : Cls.t) (c : call F) (f : Field.t) (v : F) (self : Model F) :
  ~ In f (reads c) ->
  value (invoke k c (set_field f v self)) = value (invoke k c self).
Proof.
  intros Hf. rewrite invoke_Model_methods.
  destruct c; cbn [Model_methods];
    rewrite ?C_lift_runs, ?C_drag_runs, ?C_x_runs, ?C_y_runs, ?C_z_runs;
    cbn [value fst];
    destruct f; try reflexivity; exfalso; apply Hf; cbn; tauto.
Qed.
End Construction.

Lemma init_takes_keywords_and_defaults_witness :
  NoDup (keywords [(Field.PDa, 2%R); (Field.PL0, 1%R)])
  /\ get_field Field.PDa
       (init Cls.AviarModel [(Field.PDa, 2%R); (Field.PL0, 1%R)]) = 2%R
  /\ get_field Field.PLa
       (init Cls.AviarModel [(Field.PDa, 2%R); (Field.PL0, 1%R)]) =
     get_field Field.PLa (new Cls.AviarModel).
Proof.
  assert (Hnd : NoDup (keywords [(Field.PDa, 2%R); (Field.PL0, 1%R)])).
  { repeat constructor; cbn; intuition discriminate. }
  destruct (init_takes_keywords_and_defaults Cls.AviarModel _ Hnd)
    as [Hgiven Hdefault].
  split; [exact Hnd |]. split.
  - apply Hgiven. now left.
  - apply Hdefault. cbn. intuition discriminate.
Defined.

Lemma init_keyword_order_irrelevant_witness :
  Permutation [(Field.PDa, 2%R); (Field.PL0, 1%R)]
              [(Field.PL0, 1%R); (Field.PDa, 2%R)]
  /\ NoDup (keywords [(Field.PDa, 2%R); (Field.PL0, 1%R)])
  /\ init Cls.BuzzModel [(Field.PDa, 2%R); (Field.PL0, 1%R)] =
     init Cls.BuzzModel [(Field.PL0, 1%R); (Field.PDa, 2%R)].
Proof.
  assert (Hperm : Permutation [(Field.PDa, 2%R); (Field.PL0, 1%R)]
                              [(Field.PL0, 1%R); (Field.PDa, 2%R)])
    by apply perm_swap.
  assert (Hnd : NoDup (keywords [(Field.PDa, 2%R); (Field.PL0, 1%R)])).
  { repeat constructor; cbn; intuition discriminate. }
  split; [exact Hperm |]. split; [exact Hnd |].
  exact (init_keyword_order_irrelevant Cls.BuzzModel _ _ Hperm Hnd).
Defined.

Lemma result_depends_on_loaded_fields_only_witness :
  ~ In Field.PD0 (reads (Call_C_lift 1%R))
  /\ value (invoke Cls.RocModel (Call_C_lift 1%R)
              (set_field Field.PD0 5%R (new Cls.RocModel))) =
     value (invoke Cls.RocModel (Call_C_lift 1%R) (new Cls.RocModel)).
Proof.
  assert (Hf : ~ In Field.PD0 (reads (Call_C_lift 1%R)))
    by (cbn; intuition discriminate).
  split; [exact Hf |].
  exact (result_depends_on_loaded_fields_only Cls.RocModel
           (Call_C_lift 1%R) Field.PD0 5%R (new Cls.RocModel) Hf).
Defined.

(** ** The coefficient formulas over the reals *)

Section RealFormulas.
Local Open Scope R_scope.

Variable k : Cls.t.
Variable self : Model R.

(** The code's [x ** 2] against the specification's square. *)
Lemma pow_2_is_square (x : R) : x ^ 2 = Rsqr x.
Proof. unfold Rsqr. ring. Qed.

(** Over the reals every call returns, the value the specification's
    formula gives, and leaves [self] alone. *)
Lemma invoke_real (c : call R) :
  invoke k c self = (Ok (Spec.coefficient self c), self).
Proof.
  rewrite invoke_Model_methods.
  destruct c as [alpha | alpha | wx wz | alpha wy | wz];
    cbn [Model_methods Spec.coefficient].
  - rewrite C_lift_runs. reflexivity.
  - rewrite C_drag_runs. cbn [pow2 fsub real_float].
    rewrite pow_2_is_square. reflexivity.
  - rewrite C_x_runs. reflexivity.
  - rewrite C_y_runs. reflexivity.
  - rewrite C_z_runs. reflexivity.
Qed.
End RealFormulas.

(** C4. For every model instance and all real [alpha] and [wy], [C_y]
    returns exactly [PTy0 + PTywy * wy + PTya * alpha]; its value at
    [alpha = wy = 0] is [PTy0]. *)
Theorem C_y_is_affine (k : Cls.t) (self : Model R) (alpha wy : R) :
  value (invoke k (Call_C_y alpha wy) self) =
  Ok (PTy0 self + PTywy self * wy + PTya self * alpha)%R
  /\ value (invoke k (Call_C_y 0%R 0%R) self) = Ok (PTy0 self).
Proof.
  rewrite !invoke_real. cbn [value fst Spec.coefficient].
  unfold Spec.y_torque_coefficient.
  split; f_equal; ring.
Qed.

(** C5. For every model instance and all real [wx] and [wz], [C_x] returns
    exactly [PTxwx * wx + PTxwz * wz], a combination of the two angular
    velocities with no constant term: it vanishes when both are zero. *)
Theorem C_x_is_linear (k : Cls.t) (self : Model R) (wx wz : R) :
  value (invoke k (Call_C_x wx wz) self) =
  Ok (PTxwx self * wx + PTxwz self * wz)%R
  /\ value (invoke k (Call_C_x 0%R 0%R) self) = Ok 0%R.
Proof.
  rewrite !invoke_real. cbn [value fst Spec.coefficient].
  unfold Spec.x_torque_coefficient.
  split; f_equal; ring.
Qed.

(** ** Shape of the drag curve *)

Section DragShape.
Local Open Scope R_scope.

Variable self : Model R.

Lemma drag_at_alpha_0 :
  Spec.drag_coefficient self (alpha_0 self) = PD0 self.
Proof. unfold Spec.drag_coefficient, Rsqr. ring. Qed.

Lemma drag_off_alpha_0 (eps : R) :
  Spec.drag_coefficient self (alpha_0 self + eps) =
  PD0 self + PDa self * (eps * eps).
Proof. unfold Spec.drag_coefficient, Rsqr. ring. Qed.

End DragShape.

(** C2, as stated, fails on [Model(PDa=-1)] with [eps = 1]: the drag
    coefficient at [alpha_0 + 1] is below the one at [alpha_0], over the
    reals and on the floats of the machine alike. *)
Lemma C_drag_not_minimal_when_PDa_negative :
  value (invoke Cls.Model (Call_C_drag (alpha_0 Model_negative_PDa))
           Model_negative_PDa) = Ok (18 / 100)%R
  /\ value (invoke Cls.Model
              (Call_C_drag (alpha_0 Model_negative_PDa + 1)%R)
              Model_negative_PDa) = Ok (18 / 100 - 1)%R
  /\ (18 / 100 - 1 < 18 / 100)%R
  /\ exists v0 v1 : B64.t,
       value (invoke Cls.Model
                (Call_C_drag (alpha_0 Model_negative_PDa_float))
                Model_negative_PDa_float) = Ok v0 /\
       value (invoke Cls.Model
                (Call_C_drag
                   (B64.add (alpha_0 Model_negative_PDa_float)
                      (of_int 1)))
                Model_negative_PDa_float) = Ok v1 /\
       float_lt v1 v0 = true.
Proof.
  rewrite !invoke_real. cbn [value fst Spec.coefficient].
  rewrite drag_at_alpha_0, drag_off_alpha_0.
  split; [| split; [| split]].
  - f_equal; class_defaults; lra.
  - f_equal; class_defaults; lra.
  - lra.
  - exists (S754_finite false 6485183463413514 (-55)),
      (S754_finite true 7385903388887614 (-53)).
    vm_compute. repeat split.
Qed.

(** ** Exceptions and side effects, on binary64 floats *)

Lemma pow_2_returns (x : B64.t) :
  B64.square_overflows x = false -> exists sq, B64.pow_2 x = Ok sq.
Proof.
  destruct x as [s | s | | s m e]; cbn [B64.pow_2 B64.square_overflows];
    intros Hx; try (eexists; reflexivity).
  destruct (B64.mul _ _); try discriminate Hx; eexists; reflexivity.
Qed.

Lemma pow_2_raises (x : B64.t) :
  B64.square_overflows x = true -> B64.pow_2 x = Raise OverflowError.
Proof.
  destruct x as [s | s | | s m e]; cbn [B64.pow_2 B64.square_overflows];
    intros Hx; try discriminate Hx.
  destruct (B64.mul _ _); try discriminate Hx; reflexivity.
Qed.

(** The embedding computes the doubles CPython does, e.g. the default
    [alpha_0 = 0.06981317007977318] and [Model().C_drag(0.1)]. *)
Example alpha_0_default_bits :
  alpha_0 (new (F:=B64.t) Cls.Model) =
  S754_finite false 5030569068109113 (-56).
Proof. vm_compute. reflexivity. Qed.

Example C_drag_default_at_one_tenth :
  invoke Cls.Model (Call_C_drag (dec 1 1)) (new (F:=B64.t) Cls.Model) =
  (Ok (S754_finite false 6507836888157569 (-55)), new Cls.Model).
Proof. vm_compute. reflexivity. Qed.

(** C8, as the code has it. For every model instance and all float inputs,
    no method changes a field of the model; [C_lift], [C_x], [C_y] and
    [C_z] always return a value; [C_drag] returns a value unless
    [alpha - alpha_0] is a finite float whose square is beyond the range
    of a double, in which case it raises [OverflowError]. *)
Theorem methods_pure_and_total_up_to_overflow
    (k : Cls.t) (self : Model B64.t) (c : call B64.t) :
  self_after (invoke k c self) = self
  /\ match c with
     | Call_C_drag alpha =>
         if B64.square_overflows (B64.sub alpha (alpha_0 self))
         then value (invoke k c self) = Raise OverflowError
         else exists v, value (invoke k c self) = Ok v
     | _ => exists v, value (invoke k c self) = Ok v
     end.
Proof.
  split; [apply invoke_leaves_self |].
  destruct c; try (apply invoke_returns_without_pow; discriminate).
  rewrite invoke_C_drag. cbn [fsub pow2 binary64_float].
  destruct (B64.square_overflows _) eqn:Hov.
  - now rewrite (pow_2_raises _ Hov).
  - destruct (pow_2_returns _ Hov) as [sq ->]. eexists; reflexivity.
Qed.

(** C8, as stated, fails on the default [Model] and on the default
    [JankieModel], whose parameters are all finite, at the finite angle of
    attack [2.0 ** 600]: [C_drag] raises [OverflowError]. *)
Lemma C_drag_raises_OverflowError :
  finite_parameters (new Cls.Model) = true
  /\ finite_parameters (new Cls.JankieModel) = true
  /\ B64.is_finite two_pow_600 = true
  /\ value (invoke Cls.Model (Call_C_drag two_pow_600) (new Cls.Model)) =
     Raise OverflowError
  /\ value (invoke Cls.JankieModel (Call_C_drag two_pow_600)
              (new Cls.JankieModel)) = Raise OverflowError.
Proof. vm_compute. repeat split. Qed.

(** ** Not-a-number and infinite inputs, on binary64 floats *)

Section SpecialValues.
Variable k : Cls.t.
Variable self : Model B64.t.

Lemma add_nan_l (y : B64.t) : B64.add S754_nan y = S754_nan.
Proof. reflexivity. Qed.

Lemma add_nan_r (x : B64.t) : B64.add x S754_nan = S754_nan.
Proof. destruct x; reflexivity. Qed.

Lemma mul_nan_r (x : B64.t) : B64.mul x S754_nan = S754_nan.
Proof. destruct x; reflexivity. Qed.

Lemma is_nan_eq (x : B64.t) : is_nan x = true -> x = S754_nan.
Proof. destruct x; try discriminate; reflexivity. Qed.

(** A NaN argument never raises: whatever the parameters of the model,
    each of the five methods returns NaN as soon as one of its arguments
    is NaN. *)
Theorem nan_argument_gives_nan (c : call B64.t) :
  existsb is_nan (arguments c) = true ->
  value (invoke k c self) = Ok S754_nan.
Proof.
  intros Hnan. rewrite invoke_Model_methods.
  destruct c as [alpha | alpha | wx wz | alpha wy | wz];
    cbn [Model_methods arguments existsb] in *;
    rewrite ?orb_false_r in Hnan;
    rewrite ?C_lift_runs, ?C_drag_runs, ?C_x_runs, ?C_y_runs, ?C_z_runs;
    cbn [value fst fadd fsub fmul pow2 binary64_float].
  - apply is_nan_eq in Hnan. subst alpha.
    now rewrite mul_nan_r, add_nan_r.
  - apply is_nan_eq in Hnan. subst alpha.
    cbn [B64.sub SFsub B64.pow_2]. now rewrite mul_nan_r, add_nan_r.
  - apply orb_true_iff in Hnan.
    destruct Hnan as [Hnan | Hnan]; apply is_nan_eq in Hnan; subst.
    + now rewrite mul_nan_r, add_nan_l.
    + now rewrite mul_nan_r, add_nan_r.
  - apply orb_true_iff in Hnan.
    destruct Hnan as [Hnan | Hnan]; apply is_nan_eq in Hnan; subst.
    + now rewrite mul_nan_r, add_nan_r.
    + now rewrite mul_nan_r, add_nan_r, add_nan_l.
  - apply is_nan_eq in Hnan. subst wz. now rewrite mul_nan_r.
Qed.

Lemma sub_not_finite (x y : B64.t) :
  B64.is_finite x && B64.is_finite y = false ->
  B64.square_overflows (B64.sub x y) = false.
Proof.
  destruct x as [sx | sx | | sx mx ex], y as [sy | sy | | sy my ey];
    try discriminate; intros _; try reflexivity;
    destruct sx, sy; reflexivity.
Qed.

(** [C_drag] raises nothing but [OverflowError], and only when both the
    angle of attack and [alpha_0] are finite floats: an infinite or NaN
    angle of attack is never refused. *)
Theorem C_drag_raises_only_on_finite_input (alpha : B64.t) (e : exn) :
  value (invoke k (Call_C_drag alpha) self) = Raise e ->
  e = OverflowError
  /\ B64.is_finite alpha = true
  /\ B64.is_finite (alpha_0 self) = true.
Proof.
  rewrite invoke_C_drag. cbn [fsub pow2 binary64_float]. intros Hraise.
  destruct (B64.square_overflows (B64.sub alpha (alpha_0 self))) eqn:Hov.
  - rewrite (pow_2_raises _ Hov) in Hraise.
    split; [now injection Hraise |].
    apply andb_true_iff.
    destruct (B64.is_finite alpha && B64.is_finite (alpha_0 self)) eqn:Hfin;
      [reflexivity |].
    rewrite (sub_not_finite _ _ Hfin) in Hov. discriminate Hov.
  - destruct (pow_2_returns _ Hov) as [sq Hsq]. rewrite Hsq in Hraise.
    discriminate Hraise.
Qed.

(** At an infinite angle of attack, of either sign, [C_drag] returns
    [+inf] when [alpha_0] and [PD0] are finite and [PDa] is a positive
    finite float. *)
Theorem C_drag_at_infinity (alpha : B64.t) :
  is_inf alpha = true ->
  B64.is_finite (alpha_0 self) = true ->
  is_pos_finite (PDa self) = true ->
  B64.is_finite (PD0 self) = true ->
  value (invoke k (Call_C_drag alpha) self) = Ok (S754_infinity false).
Proof.
  rewrite invoke_C_drag. cbn [fsub fadd fmul pow2 binary64_float].
  destruct alpha as [| sa | |]; try discriminate. intros _.
  destruct (alpha_0 self) as [s0 | | | s0 m0 e0]; try discriminate;
    intros _;
    (destruct (PDa self) as [| | | [|] ma ea]; try discriminate; intros _;
     destruct (PD0 self) as [sd | | | sd md ed]; try discriminate; intros _;
     reflexivity).
Qed.
End SpecialValues.

Lemma nan_argument_gives_nan_witness :
  existsb is_nan (arguments (Call_C_y (dec 1 1) S754_nan)) = true
  /\ value (invoke Cls.StormModel (Call_C_y (dec 1 1) S754_nan)
              (new Cls.StormModel)) = Ok S754_nan.
Proof.
  assert (Hnan : existsb is_nan (arguments (Call_C_y (dec 1 1) S754_nan))
                 = true) by (vm_compute; reflexivity).
  split; [exact Hnan |].
  exact (nan_argument_gives_nan Cls.StormModel (new Cls.StormModel) _ Hnan).
Defined.

Lemma C_drag_raises_only_on_finite_input_witness :
  value (invoke Cls.Model (Call_C_drag two_pow_600) (new Cls.Model)) =
    Raise OverflowError
  /\ OverflowError = OverflowError
  /\ B64.is_finite two_pow_600 = true
  /\ B64.is_finite (alpha_0 (new (F:=B64.t) Cls.Model)) = true.
Proof.
  assert (Hraise : value (invoke Cls.Model (Call_C_drag two_pow_600)
                            (new Cls.Model)) = Raise OverflowError)
    by (vm_compute; reflexivity).
  split; [exact Hraise |].
  exact (C_drag_raises_only_on_finite_input Cls.Model (new Cls.Model)
           two_pow_600 OverflowError Hraise).
Defined.

Lemma C_drag_at_infinity_witness :
  is_inf (S754_infinity true) = true
  /\ B64.is_finite (alpha_0 (new (F:=B64.t) Cls.Model)) = true
  /\ is_pos_finite (PDa (new (F:=B64.t) Cls.Model)) = true
  /\ B64.is_finite (PD0 (new (F:=B64.t) Cls.Model)) = true
  /\ value (invoke Cls.Model (Call_C_drag (S754_infinity true))
              (new Cls.Model)) = Ok (S754_infinity false).
Proof.
  assert (H0 : B64.is_finite (alpha_0 (new (F:=B64.t) Cls.Model)) = true)
    by (vm_compute; reflexivity).
  assert (Ha : is_pos_finite (PDa (new (F:=B64.t) Cls.Model)) = true)
    by (vm_compute; reflexivity).
  assert (Hd : B64.is_finite (PD0 (new (F:=B64.t) Cls.Model)) = true)
    by (vm_compute; reflexivity).
  split; [reflexivity |]. split; [exact H0 |]. split; [exact Ha |].
  split; [exact Hd |].
  exact (C_drag_at_infinity Cls.Model (new Cls.Model) (S754_infinity true)
           eq_refl H0 Ha Hd).
Defined.

(** ** The drag formula, on binary64 floats *)

(** C1, as stated, fails on the default [AviarModel], whose parameters
    are all finite, at the finite angle of attack [-(2.0 ** 600)]: the
    call raises [OverflowError] and returns no value. *)
Lemma C_drag_returns_nothing_at_minus_two_pow_600 :
  finite_parameters (new Cls.AviarModel) = true
  /\ B64.is_finite minus_two_pow_600 = true
  /\ value (invoke Cls.AviarModel (Call_C_drag minus_two_pow_600)
              (new Cls.AviarModel)) = Raise OverflowError
  /\ forall v : B64.t,
       value (invoke Cls.AviarModel (Call_C_drag minus_two_pow_600)
                (new Cls.AviarModel)) <> Ok v.
Proof.
  assert (Hraise : value (invoke Cls.AviarModel
                            (Call_C_drag minus_two_pow_600)
                            (new Cls.AviarModel)) = Raise OverflowError)
    by (vm_compute; reflexivity).
  repeat split; try (vm_compute; reflexivity).
  intros v. rewrite Hraise. discriminate.
Qed.

(** C1, as the code has it. For every model instance and every float
    [alpha], [C_drag] returns exactly [PD0 + PDa * p], where [p] is the
    value of the power [(alpha - alpha_0) ** 2] and the difference, the
    product and the sum are those of float arithmetic, whenever that power
    returns; when the square of the finite difference is beyond the range
    of a double, the power raises [OverflowError] and so does [C_drag]. *)
Theorem C_drag_is_quadratic_unless_overflow
    (k : Cls.t) (self : Model B64.t) (alpha : B64.t) :
  if B64.square_overflows (B64.sub alpha (alpha_0 self))
  then value (invoke k (Call_C_drag alpha) self) = Raise OverflowError
  else exists p : B64.t,
         B64.pow_2 (B64.sub alpha (alpha_0 self)) = Ok p /\
         value (invoke k (Call_C_drag alpha) self) =
         Ok (B64.add (PD0 self) (B64.mul (PDa self) p)).
Proof.
  rewrite invoke_C_drag. cbn [fsub fadd fmul pow2 binary64_float].
  destruct (B64.square_overflows _) eqn:Hov.
  - now rewrite (pow_2_raises _ Hov).
  - destruct (pow_2_returns _ Hov) as [p Hp]. exists p.
    rewrite Hp. split; reflexivity.
Qed.

(** ** Rounding to binary64

    What the rounding of [spec_float] does to a positive integer mantissa
    [m] at exponent [e]: the mantissa is shifted to the exponent of the
    format, rounded to nearest (ties to even), and shifted once more when
    the rounding carries into a 54th bit. From this, rounding never moves
    a value across a representable float. *)

Module Rounding.
Local Open Scope Z_scope.

Lemma digits2_pos_bounds (p : positive) :
  2 ^ (Zpos (digits2_pos p) - 1) <= Zpos p < 2 ^ Zpos (digits2_pos p).
Proof.
  induction p as [p IH | p IH |]; cbn [digits2_pos].
  - rewrite Pos2Z.inj_succ.
    replace (Z.succ (Zpos (digits2_pos p)) - 1) with (Z.succ (Zpos
        (digits2_pos p) - 1)) by lia.
    rewrite !Z.pow_succ_r by lia. lia.
  - rewrite Pos2Z.inj_succ.
    replace (Z.succ (Zpos (digits2_pos p)) - 1) with (Z.succ (Zpos
        (digits2_pos p) - 1)) by lia.
    rewrite !Z.pow_succ_r by lia. lia.
  - cbn. lia.
Qed.

Lemma iter_pos_nat {A} (f : A -> A) (p : positive) (x : A) :
  iter_pos f p x = Nat.iter (Pos.to_nat p) f x.
Proof.
  revert x. induction p as [p IH | p IH |]; intros x; cbn [iter_pos].
  - rewrite !IH. rewrite Pos2Nat.inj_xI.
    replace (S (2 * Pos.to_nat p))%nat with (Pos.to_nat p + (Pos.to_nat p +
        1))%nat by lia.
    rewrite !Nat.iter_add. cbn. reflexivity.
  - rewrite !IH. rewrite Pos2Nat.inj_xO.
    replace (2 * Pos.to_nat p)%nat with (Pos.to_nat p + Pos.to_nat p)%nat by
        lia.
    now rewrite Nat.iter_add.
  - reflexivity.
Qed.

(* one right shift *)
Lemma shr_1_m (mrs : shr_record) :
  0 <= shr_m mrs -> shr_m (shr_1 mrs) = shr_m mrs / 2.
Proof.
  destruct mrs as [m r s]. cbn [shr_m]. intros Hm.
  destruct m as [| [p | p |] | p]; cbn [shr_1 shr_m]; try lia.
  - reflexivity.
  - apply Z.div_unique with (r := 1); lia.
  - apply Z.div_unique with (r := 0); lia.
  - reflexivity.
Qed.

Lemma shr_1_exact (mrs : shr_record) :
  0 <= shr_m mrs -> shr_r mrs = false -> shr_s mrs = false ->
  shr_m mrs mod 2 = 0 ->
  shr_r (shr_1 mrs) = false /\ shr_s (shr_1 mrs) = false.
Proof.
  destruct mrs as [m r s]. cbn [shr_m shr_r shr_s]. intros Hm -> -> Hmod.
  destruct m as [| [p | p |] | p]; cbn [shr_1 shr_r shr_s orb];
    try lia; try (split; reflexivity).
  - exfalso. rewrite Pos2Z.inj_xI in Hmod.
    rewrite Z.add_comm, Z.mul_comm, Z.mod_add in Hmod by lia.
    discriminate Hmod.
  - discriminate Hmod.
Qed.

Lemma shr_iter (n : nat) (m0 : Z) :
  0 <= m0 ->
  let mrs := Nat.iter n shr_1 (Build_shr_record m0 false false) in
  shr_m mrs = m0 / 2 ^ Z.of_nat n /\
  (m0 mod 2 ^ Z.of_nat n = 0 -> shr_r mrs = false /\ shr_s mrs = false).
Proof.
  intros Hm0. induction n as [| n IH].
  - cbn. rewrite Z.div_1_r. auto.
  - cbn zeta in *. rewrite Nat.iter_succ.
    destruct IH as [IHm IHx].
    set (mrs := Nat.iter n shr_1 _) in *.
    assert (Hpow : 0 < 2 ^ Z.of_nat n) by (apply Z.pow_pos_nonneg; lia).
    assert (Hnn : 0 <= shr_m mrs) by (rewrite IHm; apply Z.div_pos; lia).
    rewrite Nat2Z.inj_succ, Z.pow_succ_r by lia.
    split.
    + rewrite shr_1_m by exact Hnn. rewrite IHm.
      rewrite Z.div_div by lia. f_equal. lia.
    + intros Hmod.
      assert (Hmodn : m0 mod 2 ^ Z.of_nat n = 0).
      { apply Z.mod_divide in Hmod; [| lia]. apply Z.mod_divide; [lia |].
        destruct Hmod as [q Hq]. exists (q * 2). lia. }
      destruct (IHx Hmodn) as [Hr Hs].
      apply shr_1_exact; try assumption.
      rewrite IHm.
      apply Z.mod_divide in Hmod; [| lia]. destruct Hmod as [q Hq].
      rewrite Hq. replace (q * (2 * 2 ^ Z.of_nat n)) with ((q * 2) * 2 ^
          Z.of_nat n) by lia.
      rewrite Z.div_mul by lia. apply Z.mod_mul. lia.
Qed.

Lemma fexp_eq (e : Z) : fexp B64.prec B64.emax e = Z.max (e - 53) (-1074).
Proof. reflexivity. Qed.

Lemma digits2_le (q : positive) (k : Z) :
  0 <= k -> Zpos q < 2 ^ k -> Zpos (digits2_pos q) <= k.
Proof.
  intros Hk Hq. destruct (digits2_pos_bounds q) as [Hlo _].
  destruct (Z_le_gt_dec (Zpos (digits2_pos q)) k) as [Hle | Hgt]; [exact Hle |].
  assert (2 ^ k <= 2 ^ (Zpos (digits2_pos q) - 1)) by (apply Z.pow_le_mono_r;
      lia).
  lia.
Qed.

Lemma digits2_ge (q : positive) (k : Z) :
  2 ^ k <= Zpos q -> k < Zpos (digits2_pos q).
Proof.
  intros Hq. destruct (digits2_pos_bounds q) as [_ Hhi].
  destruct (Z_lt_le_dec k (Zpos (digits2_pos q))) as [Hlt | Hge]; [exact Hlt |].
  assert (2 ^ Zpos (digits2_pos q) <= 2 ^ k) by (apply Z.pow_le_mono_r; lia).
  lia.
Qed.

Lemma round_nearest_even_bounds (mrs : shr_record) :
  let m1 := round_nearest_even (shr_m mrs) (loc_of_shr_record mrs) in
  shr_m mrs <= m1 <= shr_m mrs + 1 /\
  (shr_r mrs = false -> shr_s mrs = false -> m1 = shr_m mrs).
Proof.
  destruct mrs as [m [|] [|]]; cbn [shr_m shr_r shr_s loc_of_shr_record
      round_nearest_even];
    try (split; [lia | congruence]).
  destruct (Z.even m); split; try lia; congruence.
Qed.

(** shifting right by [n >= 0] from an exact record *)
Lemma shr_spec (m0 e n : Z) :
  0 <= m0 -> 0 <= n ->
  let res := shr (Build_shr_record m0 false false) e n in
  snd res = e + n /\
  shr_m (fst res) = m0 / 2 ^ n /\
  (m0 mod 2 ^ n = 0 -> shr_r (fst res) = false /\ shr_s (fst res) = false).
Proof.
  intros Hm0 Hn. destruct n as [| p | p]; cbn [shr fst snd]; [| | lia].
  - cbn [shr_m shr_r shr_s]. rewrite Z.add_0_r, Z.div_1_r. auto.
  - rewrite iter_pos_nat.
    destruct (shr_iter (Pos.to_nat p) m0 Hm0) as [Hm Hx].
    rewrite positive_nat_Z in Hm, Hx. auto.
Qed.

Lemma binary_round_aux_spec (sx : bool) (mx : positive) (ex : Z) :
  let e' := fexp B64.prec B64.emax (Zpos (digits2_pos mx) + ex) in
  ex <= e' ->
  let n := e' - ex in
  let m' := Zpos mx / 2 ^ n in
  exists m1 : Z,
    m' <= m1 <= m' + 1 /\ m' < 2 ^ 53 /\
    (Zpos mx mod 2 ^ n = 0 -> m1 = m') /\
    binary_round_aux B64.prec B64.emax sx (Zpos mx) ex loc_Exact =
    if m1 <? 2 ^ 53 then finish sx m1 e' else finish sx (2 ^ 52) (e' + 1).
Proof.
  intros e' Hex n m'.
  unfold binary_round_aux, shr_fexp. cbn [shr_record_of_loc Zdigits2].
  fold e'. fold n.
  assert (Hn : 0 <= n) by (unfold n; lia).
  destruct (shr_spec (Zpos mx) ex n ltac:(lia) Hn) as (He & Hm & Hx).
  destruct (shr (Build_shr_record (Zpos mx) false false) ex n) as [mrs' e1].
  cbn [fst snd] in He, Hm, Hx. subst e1.
  replace (ex + n) with e' by (unfold n; lia).
  destruct (round_nearest_even_bounds mrs') as [Hb Hexact].
  set (m1 := round_nearest_even (shr_m mrs') (loc_of_shr_record mrs')) in *.
  fold m' in Hm. rewrite Hm in Hb, Hexact.
  assert (Hpown : 0 < 2 ^ n) by (apply Z.pow_pos_nonneg; lia).
  assert (Hm'0 : 0 <= m') by (apply Z.div_pos; lia).
  assert (Hm'lt : m' < 2 ^ 53).
  { apply Z.div_lt_upper_bound; [lia |].
    destruct (digits2_pos_bounds mx) as [_ Hhi].
    rewrite <- Z.pow_add_r by lia.
    eapply Z.lt_le_trans; [exact Hhi |].
    apply Z.pow_le_mono_r; [lia |].
    unfold n, e'. rewrite fexp_eq. lia. }
  assert (He'min : -1074 <= e') by (unfold e'; rewrite fexp_eq; lia).
  exists m1. split; [exact Hb |]. split; [exact Hm'lt |].
  split; [intros Hmod; destruct (Hx Hmod); auto |].
  destruct (Z.ltb_spec m1 (2 ^ 53)) as [Hlt | Hge].
  - (* no carry: the second shift does nothing *)
    assert (Hn2 : fexp B64.prec B64.emax (Zdigits2 m1 + e') - e' <= 0).
    { rewrite fexp_eq. destruct m1 as [| q | q]; cbn [Zdigits2]; [lia | | lia].
      pose proof (digits2_le q 53 ltac:(lia) Hlt). lia. }
    destruct (fexp B64.prec B64.emax (Zdigits2 m1 + e') - e') as [| p | p]
        eqn:Hsh;
      [| lia |]; cbn [shr shr_m]; destruct m1; try lia; reflexivity.
  - assert (Hm1 : m1 = 2 ^ 53) by lia.
    rewrite Hm1. change (2 ^ 53) with (Zpos 9007199254740992).
    cbn [Zdigits2]. 
    replace (fexp B64.prec B64.emax (Zpos (digits2_pos 9007199254740992) + e')
        - e') with 1.
    + cbn [shr iter_pos shr_1 shr_m]. reflexivity.
    + rewrite fexp_eq. change (Zpos (digits2_pos 9007199254740992)) with 54.
        lia.
Qed.

Lemma pos_iter_xO (m d : positive) :
  Zpos (Pos.iter xO m d) = Zpos m * 2 ^ Zpos d.
Proof.
  induction d as [| d IH] using Pos.peano_ind.
  - cbn. lia.
  - rewrite Pos.iter_succ, Pos2Z.inj_xO, IH, Pos2Z.inj_succ, Z.pow_succ_r by
      lia.
    lia.
Qed.

Lemma shl_align_spec (m : positive) (e e' : Z) :
  e' <= e ->
  Zpos (fst (shl_align m e e')) = Zpos m * 2 ^ (e - e') /\
  snd (shl_align m e e') = e'.
Proof.
  intros He. unfold shl_align.
  destruct (e' - e) as [| p | p] eqn:Hd; cbn [fst snd]; [| lia |].
  - replace (e - e') with 0 by lia. split; lia.
  - rewrite pos_iter_xO. replace (e - e') with (Zpos p) by lia. split; lia.
Qed.

Lemma shl_align_keep (m : positive) (e e' : Z) :
  e <= e' -> shl_align m e e' = (m, e).
Proof.
  intros He. unfold shl_align. destruct (e' - e) eqn:Hd; try reflexivity. lia.
Qed.

Lemma digits2_shift (m z : positive) (k : Z) :
  0 <= k -> Zpos z = Zpos m * 2 ^ k ->
  Zpos (digits2_pos z) = Zpos (digits2_pos m) + k.
Proof.
  intros Hk Hz.
  destruct (digits2_pos_bounds m) as [Hlo Hhi].
  assert (Hpow : 0 < 2 ^ k) by (apply Z.pow_pos_nonneg; lia).
  assert (H1 : Zpos (digits2_pos z) <= Zpos (digits2_pos m) + k).
  { apply digits2_le; [lia |]. rewrite Z.pow_add_r by lia. nia. }
  assert (H2 : Zpos (digits2_pos m) - 1 + k < Zpos (digits2_pos z)).
  { apply digits2_ge. rewrite Z.pow_add_r by lia. nia. }
  lia.
Qed.

(** [binary_round] is [binary_round_aux] on a mantissa aligned at or below
    the rounding exponent, with the same value. *)
Lemma binary_round_aligned (sx : bool) (mx : positive) (ex : Z) :
  exists (mz : positive) (ez : Z),
    binary_round B64.prec B64.emax sx mx ex =
    binary_round_aux B64.prec B64.emax sx (Zpos mz) ez loc_Exact /\
    ez <= ex /\ Zpos mz = Zpos mx * 2 ^ (ex - ez) /\
    ez <= fexp B64.prec B64.emax (Zpos (digits2_pos mz) + ez).
Proof.
  unfold binary_round.
  set (e' := fexp B64.prec B64.emax (Zpos (digits2_pos mx) + ex)).
  destruct (Z_le_gt_dec ex e') as [Hle | Hgt].
  - rewrite (shl_align_keep _ _ _ Hle). exists mx, ex.
    split; [reflexivity |]. replace (ex - ex) with 0 by lia.
    repeat split; try lia; exact Hle.
  - destruct (shl_align_spec mx ex e' ltac:(lia)) as [Hm He].
    destruct (shl_align mx ex e') as [mz ez]. cbn [fst snd] in Hm, He. subst ez.
    exists mz, e'. split; [reflexivity |]. repeat split; try lia.
    rewrite (digits2_shift mx mz (ex - e')) by (lia || exact Hm).
    replace (Zpos (digits2_pos mx) + (ex - e') + e') with (Zpos (digits2_pos
        mx) + ex) by lia.
    fold e'. lia.
Qed.

Lemma bounded_facts (mb : positive) (eb : Z) :
  bounded B64.prec B64.emax mb eb = true ->
  fexp B64.prec B64.emax (Zpos (digits2_pos mb) + eb) = eb /\ eb <= 971 /\
  Zpos mb < 2 ^ 53 /\ -1074 <= eb /\
  (-1074 < eb -> 2 ^ 52 <= Zpos mb).
Proof.
  unfold bounded, canonical_mantissa. intros Hb.
  apply andb_true_iff in Hb. destruct Hb as [Hc He].
  apply Z.eqb_eq in Hc. apply Z.leb_le in He.
  change (B64.emax - B64.prec) with 971 in He.
  pose proof Hc as Hc'. rewrite fexp_eq in Hc'.
  destruct (digits2_pos_bounds mb) as [Hlo Hhi].
  repeat split; try lia.
  - eapply Z.lt_le_trans; [exact Hhi |]. apply Z.pow_le_mono_r; lia.
  - intros Hsub. eapply Z.le_trans; [| exact Hlo]. apply Z.pow_le_mono_r; lia.
Qed.

Lemma finish_pos (sx : bool) (m e : Z) :
  0 < m ->
  finish sx m e = S754_infinity sx \/
  exists p, m = Zpos p /\ finish sx m e = S754_finite sx p e /\ e <= 971.
Proof.
  intros Hm. destruct m as [| p | p]; try lia. cbn [finish].
  change (B64.emax - B64.prec) with 971.
  destruct (Z.leb_spec e 971); [right; exists p; auto | left; reflexivity].
Qed.

Lemma finish_small (sx : bool) (m e : Z) :
  0 <= m -> e <= 971 ->
  finish sx m e = S754_zero sx \/
  exists p, m = Zpos p /\ finish sx m e = S754_finite sx p e.
Proof.
  intros Hm He. destruct m as [| p | p]; try lia; cbn [finish].
  - now left.
  - change (B64.emax - B64.prec) with 971.
    destruct (Z.leb_spec e 971); [right; exists p; auto | lia].
Qed.

(** Rounding a value at or above a representable [mb * 2^eb] gives that
    number or more. *)
Lemma round_aux_ge (mb mz : positive) (eb ez : Z) :
  bounded B64.prec B64.emax mb eb = true ->
  ez <= fexp B64.prec B64.emax (Zpos (digits2_pos mz) + ez) ->
  ez <= eb -> Zpos mb * 2 ^ (eb - ez) <= Zpos mz ->
  let r := binary_round_aux B64.prec B64.emax false (Zpos mz) ez loc_Exact in
  r = S754_infinity false \/
  exists m e, r = S754_finite false m e /\ (eb < e \/ e = eb /\ (mb <=
      m)%positive).
Proof.
  intros Hb Hal Hez Hval r.
  destruct (bounded_facts mb eb Hb) as (Hcan & Hmax & Hmb53 & Hmin & Hnorm).
  destruct (binary_round_aux_spec false mz ez Hal) as (m1 & Hm1 & Hm'lt & _ &
      Hr).
  fold r in Hr.
  set (e' := fexp B64.prec B64.emax (Zpos (digits2_pos mz) + ez)) in *.
  set (n := e' - ez) in *. set (m' := Zpos mz / 2 ^ n) in *.
  assert (Hn : 0 <= n) by (unfold n; lia).
  assert (Hpown : 0 < 2 ^ n) by (apply Z.pow_pos_nonneg; lia).
  assert (Hpowb : 0 < 2 ^ (eb - ez)) by (apply Z.pow_pos_nonneg; lia).
  destruct (digits2_pos_bounds mz) as [Hzlo Hzhi].
  destruct (digits2_pos_bounds mb) as [Hblo Hbhi].
  (* the rounding exponent is at least the anchor's *)
  assert (Hd : Zpos (digits2_pos mb) + eb <= Zpos (digits2_pos mz) + ez).
  { assert (H : Zpos (digits2_pos mb) - 1 + (eb - ez) < Zpos (digits2_pos mz)).
    { apply digits2_ge. rewrite Z.pow_add_r by lia.
      eapply Z.le_trans; [| exact Hval].
      apply Z.mul_le_mono_nonneg_r; lia. }
    lia. }
  assert (He' : eb <= e').
  { unfold e'. rewrite <- Hcan. rewrite !fexp_eq. lia. }
  assert (Hm'pos : 0 < m').
  { destruct (Z.eq_dec e' eb) as [Heq | Hne].
    - assert (Zpos mb <= m'); [| lia].
      apply Z.div_le_lower_bound; [lia |].
      unfold n. rewrite Heq. lia.
    - assert (1 <= m'); [| lia].
      apply Z.div_le_lower_bound; [lia |]. rewrite Z.mul_1_r.
      eapply Z.le_trans; [| exact Hzlo]. apply Z.pow_le_mono_r; [lia |].
      unfold n. assert (e' = Zpos (digits2_pos mz) + ez - 53); [| lia].
      unfold e' in *. rewrite fexp_eq in *. lia. }
  destruct (Z.ltb_spec m1 (2 ^ 53)) as [Hlt | Hge]; rewrite Hr.
  - destruct (finish_pos false m1 e' ltac:(lia)) as [Hinf | (p & Hp & Hfin &
      _)];
      [now left | right].
    exists p, e'. split; [exact Hfin |].
    destruct (Z.eq_dec e' eb) as [Heq | Hne]; [right | left; lia].
    split; [exact Heq |].
    assert (Zpos mb <= m').
    { apply Z.div_le_lower_bound; [lia |]. unfold n. rewrite Heq. lia. }
    lia.
  - destruct (finish_pos false (2 ^ 52) (e' + 1) ltac:(lia))
      as [Hinf | (p & Hp & Hfin & _)]; [now left | right].
    exists p, (e' + 1). split; [exact Hfin |]. left. lia.
Qed.

(** Rounding a value at or below a representable [mb * 2^eb] gives that
    number or less. *)
Lemma round_aux_le (sx : bool) (mb mz : positive) (eb ez : Z) :
  bounded B64.prec B64.emax mb eb = true ->
  ez <= fexp B64.prec B64.emax (Zpos (digits2_pos mz) + ez) ->
  ez <= eb -> Zpos mz <= Zpos mb * 2 ^ (eb - ez) ->
  let r := binary_round_aux B64.prec B64.emax sx (Zpos mz) ez loc_Exact in
  r = S754_zero sx \/
  exists m e, r = S754_finite sx m e /\ (e < eb \/ e = eb /\ (m <=
      mb)%positive).
Proof.
  intros Hb Hal Hez Hval r.
  destruct (bounded_facts mb eb Hb) as (Hcan & Hmax & Hmb53 & Hmin & Hnorm).
  destruct (binary_round_aux_spec sx mz ez Hal) as (m1 & Hm1 & Hm'lt & Hexact
      & Hr).
  fold r in Hr.
  set (e' := fexp B64.prec B64.emax (Zpos (digits2_pos mz) + ez)) in *.
  set (n := e' - ez) in *. set (m' := Zpos mz / 2 ^ n) in *.
  assert (Hn : 0 <= n) by (unfold n; lia).
  assert (Hpown : 0 < 2 ^ n) by (apply Z.pow_pos_nonneg; lia).
  assert (Hpowb : 0 < 2 ^ (eb - ez)) by (apply Z.pow_pos_nonneg; lia).
  destruct (digits2_pos_bounds mz) as [Hzlo Hzhi].
  destruct (digits2_pos_bounds mb) as [Hblo Hbhi].
  assert (Hm'0 : 0 <= m') by (apply Z.div_pos; lia).
  assert (Hd : Zpos (digits2_pos mz) + ez <= Zpos (digits2_pos mb) + eb).
  { assert (H : Zpos (digits2_pos mz) <= Zpos (digits2_pos mb) + (eb - ez)).
    { apply digits2_le; [lia |]. rewrite Z.pow_add_r by lia.
      eapply Z.le_lt_trans; [exact Hval |].
      apply Z.mul_lt_mono_pos_r; lia. }
    lia. }
  assert (He' : e' <= eb).
  { unfold e'. rewrite <- Hcan. rewrite !fexp_eq. lia. }
  assert (He'min : -1074 <= e') by (unfold e'; rewrite fexp_eq; lia).
  assert (Hsame_exp : e' = eb -> m1 <= Zpos mb).
  { intros Heq.
    assert (Hle : m' <= Zpos mb).
    { apply Z.div_le_upper_bound; [lia |]. unfold n. rewrite Heq. lia. }
    destruct (Z.eq_dec m' (Zpos mb)) as [Hsame | Hdiff]; [| lia].
    (* the value is the anchor itself: the rounding is exact *)
    assert (Hmul : Zpos mz = Zpos mb * 2 ^ n).
    { pose proof (Z.mul_div_le (Zpos mz) (2 ^ n) Hpown) as Hfloor.
      fold m' in Hfloor. rewrite Hsame in Hfloor.
      unfold n in *. rewrite Heq in *. lia. }
    assert (Hmod : Zpos mz mod 2 ^ n = 0).
    { rewrite Hmul. apply Z.mod_mul. lia. }
    rewrite (Hexact Hmod). exact Hle. }
  destruct (Z.ltb_spec m1 (2 ^ 53)) as [Hlt | Hge]; rewrite Hr.
  - destruct (finish_small sx m1 e' ltac:(lia) ltac:(lia)) as [Hz | (p & Hp &
      Hfin)];
      [now left | right].
    exists p, e'. split; [exact Hfin |].
    destruct (Z.eq_dec e' eb) as [Heq | Hne]; [right | left; lia].
    split; [exact Heq |]. specialize (Hsame_exp Heq). lia.
  - assert (Hlower : e' < eb).
    { destruct (Z.eq_dec e' eb) as [Heq | Hne]; [| lia].
      specialize (Hsame_exp Heq). lia. }
    destruct (finish_small sx (2 ^ 52) (e' + 1) ltac:(lia) ltac:(lia))
      as [Hz | (p & Hp & Hfin)]; [now left | right].
    exists p, (e' + 1). split; [exact Hfin |].
    destruct (Z.eq_dec (e' + 1) eb) as [Heq | Hne]; [right | left; lia].
    split; [exact Heq |]. specialize (Hnorm ltac:(lia)). lia.
Qed.

Lemma shr_nonneg (m e n : Z) :
  0 <= m -> 0 <= shr_m (fst (shr (Build_shr_record m false false) e n)).
Proof.
  intros Hm. destruct n as [| p | p]; try (cbn [shr fst shr_m]; exact Hm).
  destruct (shr_spec m e (Zpos p) Hm ltac:(lia)) as (_ & Hsm & _).
  rewrite Hsm. apply Z.div_pos; [exact Hm |]. apply Z.pow_pos_nonneg; lia.
Qed.

Lemma binary_round_aux_signed (sx : bool) (m : positive) (e : Z) :
  signed sx (binary_round_aux B64.prec B64.emax sx (Zpos m) e loc_Exact) = true.
Proof.
  unfold binary_round_aux, shr_fexp. cbn [shr_record_of_loc].
  pose proof (shr_nonneg (Zpos m) e
                (fexp B64.prec B64.emax (Zdigits2 (Zpos m) + e) - e)
                    ltac:(lia)) as H1.
  destruct (shr _ e _) as [mrs' e'].
  cbn [fst] in H1.
  destruct (round_nearest_even_bounds mrs') as [Hb _].
  set (m1 := round_nearest_even (shr_m mrs') (loc_of_shr_record mrs')) in *.
  pose proof (shr_nonneg m1 e' (fexp B64.prec B64.emax (Zdigits2 m1 + e') - e')
                ltac:(lia)) as H2.
  destruct (shr _ e' _) as [mrs'' e''].
  cbn [fst] in H2.
  destruct (shr_m mrs'') as [| p | p]; [| | lia].
  - cbn. apply eqb_reflx.
  - destruct (e'' <=? B64.emax - B64.prec); cbn; apply eqb_reflx.
Qed.

Lemma binary_round_signed (sx : bool) (m : positive) (e : Z) :
  signed sx (binary_round B64.prec B64.emax sx m e) = true.
Proof.
  destruct (binary_round_aligned sx m e) as (mz & ez & -> & _).
  apply binary_round_aux_signed.
Qed.

Lemma binary_round_ge (mb mx : positive) (eb ex : Z) :
  bounded B64.prec B64.emax mb eb = true ->
  ex <= eb -> Zpos mb * 2 ^ (eb - ex) <= Zpos mx ->
  SFltb (binary_round B64.prec B64.emax false mx ex) (S754_finite false mb eb)
      = false.
Proof.
  intros Hb Hex Hval.
  destruct (binary_round_aligned false mx ex) as (mz & ez & -> & Hez & Hmz &
      Hal).
  assert (Hval' : Zpos mb * 2 ^ (eb - ez) <= Zpos mz).
  { rewrite Hmz. replace (eb - ez) with ((eb - ex) + (ex - ez)) by lia.
    rewrite Z.pow_add_r by lia.
    assert (0 < 2 ^ (ex - ez)) by (apply Z.pow_pos_nonneg; lia). nia. }
  destruct (round_aux_ge mb mz eb ez Hb Hal ltac:(lia) Hval')
    as [-> | (m & e & -> & Hlex)]; [reflexivity |].
  unfold SFltb, SFcompare.
  destruct Hlex as [Hlt | [-> Hle]].
  - destruct (Z.compare_spec e eb); try lia; reflexivity.
  - rewrite Z.compare_refl. change (Pos.compare_cont Eq m mb) with
      (Pos.compare m mb).
    destruct (Pos.compare_spec m mb); try lia; reflexivity.
Qed.

Lemma binary_round_le (mb mx : positive) (eb ex : Z) :
  bounded B64.prec B64.emax mb eb = true ->
  ex <= eb -> Zpos mx <= Zpos mb * 2 ^ (eb - ex) ->
  SFltb (binary_round B64.prec B64.emax true mx ex) (S754_finite true mb eb) =
      false.
Proof.
  intros Hb Hex Hval.
  destruct (binary_round_aligned true mx ex) as (mz & ez & -> & Hez & Hmz &
      Hal).
  assert (Hval' : Zpos mz <= Zpos mb * 2 ^ (eb - ez)).
  { rewrite Hmz. replace (eb - ez) with ((eb - ex) + (ex - ez)) by lia.
    rewrite Z.pow_add_r by lia.
    assert (0 < 2 ^ (ex - ez)) by (apply Z.pow_pos_nonneg; lia). nia. }
  destruct (round_aux_le true mb mz eb ez Hb Hal ltac:(lia) Hval')
    as [-> | (m & e & -> & Hlex)]; [reflexivity |].
  unfold SFltb, SFcompare.
  destruct Hlex as [Hlt | [-> Hle]].
  - destruct (Z.compare_spec e eb); try lia; reflexivity.
  - rewrite Z.compare_refl. change (Pos.compare_cont Eq m mb) with
      (Pos.compare m mb).
    destruct (Pos.compare_spec m mb); try lia; reflexivity.
Qed.

(** Adding a positive finite float never gives less than the valid finite
    float it is added to. *)
Lemma add_positive_not_below (sa : bool) (ma mt : positive) (ea et : Z) :
  bounded B64.prec B64.emax ma ea = true ->
  SFltb (SFadd B64.prec B64.emax (S754_finite sa ma ea) (S754_finite false mt
      et))
        (S754_finite sa ma ea) = false.
Proof.
  intros Hb. cbn [SFadd].
  set (ez := Z.min ea et).
  destruct (shl_align_spec ma ea ez ltac:(lia)) as [HA _].
  destruct (shl_align_spec mt et ez ltac:(lia)) as [HT _].
  set (A := Zpos (fst (shl_align ma ea ez))) in *.
  set (T := Zpos (fst (shl_align mt et ez))) in *.
  assert (HApos : 0 < A) by (unfold A; lia).
  assert (HTpos : 0 < T) by (unfold T; lia).
  destruct sa; cbn [cond_Zopp].
  - (* a negative anchor *)
    destruct (- A + T) as [| z | z] eqn:Hz; cbn [binary_normalize].
    + reflexivity.
    + pose proof (binary_round_signed false z ez) as Hs.
      destruct (binary_round B64.prec B64.emax false z ez) as [s | s | | s m e];
        try discriminate Hs; cbn in Hs; destruct s; try discriminate Hs;
        reflexivity.
    + apply binary_round_le; [exact Hb | lia |]. rewrite <- HA. lia.
  - destruct (A + T) as [| z | z] eqn:Hz; try lia. cbn [binary_normalize].
    apply binary_round_ge; [exact Hb | lia |]. rewrite <- HA. lia.
Qed.
End Rounding.

(** ** Order and signs of binary64 floats *)

Lemma float_lt_irrefl (x : B64.t) : float_lt x x = false.
Proof.
  unfold float_lt, SFltb.
  destruct x as [s | s | | s m e]; try reflexivity;
    try (destruct s; reflexivity).
  destruct s; cbn [SFcompare]; rewrite Z.compare_refl;
    change (Pos.compare_cont Eq m m) with (Pos.compare m m);
    rewrite Pos.compare_refl; reflexivity.
Qed.

Lemma SFcompare_antisym (x y : B64.t) :
  SFcompare y x = option_map CompOpp (SFcompare x y).
Proof.
  destruct x as [sx | sx | | sx mx ex], y as [sy | sy | | sy my ey];
    cbn [SFcompare option_map]; try reflexivity;
    try (destruct sx; reflexivity); try (destruct sy; reflexivity);
    try (destruct sx, sy; reflexivity).
  change (Pos.compare_cont Eq my mx) with (Pos.compare my mx).
  change (Pos.compare_cont Eq mx my) with (Pos.compare mx my).
  rewrite (Z.compare_antisym ex ey), (Pos.compare_antisym mx my).
  destruct sx, sy; try reflexivity;
    destruct (ex ?= ey)%Z; cbn [CompOpp]; try reflexivity;
    destruct (mx ?= my)%positive; reflexivity.
Qed.

(** Between two floats that are not NaN, [not (x < y)] is [y <= x]. *)
Lemma not_lt_is_le (x y : B64.t) :
  is_nan x = false -> is_nan y = false ->
  float_lt x y = false -> float_le y x = true.
Proof.
  unfold float_lt, float_le, SFltb, SFleb. intros Hx Hy.
  rewrite (SFcompare_antisym x y).
  destruct (SFcompare x y) as [[| |] |] eqn:Hc; cbn [option_map CompOpp];
    try reflexivity; try discriminate.
  intros _. destruct x, y; try discriminate; cbn in Hc;
    repeat match goal with s : bool |- _ => destruct s end; discriminate.
Qed.

Lemma signed_not_negative (x : B64.t) :
  signed false x = true -> not_negative x = true.
Proof. destruct x as [s | s | | s m e]; try destruct s; trivial. Qed.


(** The product of a finite float and a float that is not NaN is never
    NaN, and its sign bit is the exclusive or of the two sign bits, also
    when it underflows to a zero or overflows to an infinity. *)
Lemma mul_finite_signed (sx : bool) (mx : positive) (ex : Z) (y : B64.t) :
  is_nan y = false ->
  signed (xorb sx (sign_bit y)) (B64.mul (S754_finite sx mx ex) y) = true.
Proof.
  destruct y as [sy | sy | | sy my ey]; try discriminate; intros _;
    cbn [B64.mul SFmul sign_bit signed]; try apply eqb_reflx.
  apply Rounding.binary_round_aux_signed.
Qed.

Lemma mul_not_negative (p q : B64.t) :
  is_nonneg_finite p = true -> not_negative q = true ->
  not_negative (B64.mul p q) = true.
Proof.
  destruct p as [sp | | | [|] mp ep]; try discriminate; intros _;
    destruct q as [sq | [|] | | [|] mq eq]; try discriminate; intros _;
    try reflexivity.
  apply signed_not_negative.
  exact (mul_finite_signed false mp ep (S754_finite false mq eq) eq_refl).
Qed.

(** A power [x ** 2] that returns is not negative. *)
Lemma pow_2_not_negative (x p : B64.t) :
  B64.pow_2 x = Ok p -> not_negative p = true.
Proof.
  destruct x as [s | s | | s m e]; cbn [B64.pow_2];
    try (intros Hp; injection Hp as <-; reflexivity).
  pose proof (mul_finite_signed false m e (S754_finite false m e) eq_refl)
    as Hs. cbn [sign_bit xorb] in Hs.
  destruct (B64.mul (S754_finite false m e) (S754_finite false m e))
    as [s' | s' | | s' m' e']; try discriminate;
    intros Hp; injection Hp as <-; now apply signed_not_negative.
Qed.

Lemma sub_self (a : B64.t) :
  B64.is_finite a = true -> B64.sub a a = S754_zero false.
Proof.
  destruct a as [s | s | | s m e]; try discriminate; intros _.
  - destruct s; reflexivity.
  - cbn [B64.sub SFsub]. rewrite Z.min_id.
    unfold shl_align. rewrite !Z.sub_diag. reflexivity.
Qed.

(** Adding a float that is not negative to a finite float [a] never gives
    less than [a + 0.0]. *)
Lemma add_not_below (a t : B64.t) (s0 : bool) :
  well_formed a = true -> B64.is_finite a = true ->
  not_negative t = true ->
  float_lt (B64.add a t) (B64.add a (S754_zero s0)) = false.
Proof.
  intros Hwf Ha Ht.
  destruct a as [sa | sa | | sa ma ea]; try discriminate Ha.
  - destruct t as [st | [|] | | [|] mt et]; try discriminate Ht;
      destruct sa, s0; try destruct st; reflexivity.
  - destruct t as [st | [|] | | [|] mt et]; try discriminate Ht.
    + apply float_lt_irrefl.
    + destruct sa; reflexivity.
    + reflexivity.
    + apply Rounding.add_positive_not_below. exact Hwf.
Qed.

(** ** The minimum of the drag, on binary64 floats *)

Section DragMinimum.
Variable k : Cls.t.
Variable self : Model B64.t.

(** What [C_drag] returns is never below [PD0 + 0.0], when [PD0] is a
    finite float and [PDa] a finite float that is not negative. *)
Lemma C_drag_not_below (alpha v : B64.t) (s0 : bool) :
  B64.is_finite (PD0 self) = true -> well_formed (PD0 self) = true ->
  is_nonneg_finite (PDa self) = true ->
  value (invoke k (Call_C_drag alpha) self) = Ok v ->
  float_lt v (B64.add (PD0 self) (S754_zero s0)) = false.
Proof.
  intros HPD0 Hwf HPDa. rewrite invoke_C_drag.
  cbn [fsub fadd fmul pow2 binary64_float].
  destruct (B64.pow_2 (B64.sub alpha (alpha_0 self))) as [p | e] eqn:Hp;
    [| discriminate].
  intros Hv. injection Hv as <-.
  apply add_not_below; try assumption.
  apply mul_not_negative; [exact HPDa |].
  exact (pow_2_not_negative _ _ Hp).
Qed.

Lemma C_drag_at_alpha_0 :
  B64.is_finite (alpha_0 self) = true ->
  value (invoke k (Call_C_drag (alpha_0 self)) self) =
  Ok (B64.add (PD0 self) (B64.mul (PDa self) (S754_zero false))).
Proof.
  intros Ha0. rewrite invoke_C_drag.
  cbn [fsub fadd fmul pow2 binary64_float].
  rewrite (sub_self _ Ha0). reflexivity.
Qed.

Lemma mul_zero_nonneg (p : B64.t) :
  is_nonneg_finite p = true ->
  exists s0 : bool, B64.mul p (S754_zero false) = S754_zero s0.
Proof.
  destruct p as [s | | | [|] m e]; try discriminate; intros _;
    eexists; reflexivity.
Qed.

Lemma add_zero_not_nan (a : B64.t) (s0 : bool) :
  B64.is_finite a = true -> is_nan (B64.add a (S754_zero s0)) = false.
Proof.
  destruct a as [s | | | s m e]; try discriminate; intros _;
    destruct s, s0; reflexivity.
Qed.

Lemma C_drag_at_plus_infinity :
  B64.is_finite (alpha_0 self) = true ->
  B64.is_finite (PD0 self) = true ->
  is_pos_finite (PDa self) = true ->
  value (invoke k (Call_C_drag (F:=B64.t) (S754_infinity false)) self) =
  Ok (S754_infinity false).
Proof.
  rewrite invoke_C_drag. cbn [fsub fadd fmul pow2 binary64_float].
  destruct (alpha_0 self) as [s0 | | | s0 m0 e0]; try discriminate;
    intros _;
    (destruct (PD0 self) as [sd | | | sd md ed]; try discriminate; intros _;
     destruct (PDa self) as [| | | [|] ma ea]; try discriminate; intros _;
     reflexivity).
Qed.
End DragMinimum.

(** One unit off [alpha_0] the default model returns a number. *)
Lemma C_drag_default_returns_one_off_alpha_0 :
  exists v : B64.t,
    value (invoke Cls.Model
             (Call_C_drag
                (B64.add (alpha_0 (new (F:=B64.t) Cls.Model)) (of_int 1)))
             (new Cls.Model)) = Ok v /\
    is_nan v = false.
Proof.
  exists (S754_finite false 7836263351624662 (-53)).
  vm_compute. split; reflexivity.
Qed.

(** C2, as the code has it. For every model instance whose [alpha_0] and
    [PD0] are finite floats and whose [PDa] is a finite float that is not
    negative, [C_drag(alpha_0)] returns a value [v0] that no call
    undercuts: whenever [C_drag(alpha)] returns a value [v] (it may raise
    [OverflowError] instead), [v < v0] is false, and [v0 <= v] holds
    unless [v] is NaN. When [PDa] is moreover positive, the drag exceeds
    every finite bound [M]: at an infinite angle of attack [C_drag]
    returns [+inf]. *)
Theorem C_drag_minimal_at_alpha_0_and_unbounded
    (k : Cls.t) (self : Model B64.t) :
  B64.is_finite (alpha_0 self) = true ->
  B64.is_finite (PD0 self) = true -> well_formed (PD0 self) = true ->
  is_nonneg_finite (PDa self) = true ->
  exists v0 : B64.t,
    value (invoke k (Call_C_drag (alpha_0 self)) self) = Ok v0 /\
    is_nan v0 = false /\
    (forall alpha v : B64.t,
       value (invoke k (Call_C_drag alpha) self) = Ok v ->
       float_lt v v0 = false /\
       (is_nan v = false -> float_le v0 v = true))
    /\ (is_pos_finite (PDa self) = true ->
        forall M : B64.t, B64.is_finite M = true ->
        exists alpha v : B64.t,
          value (invoke k (Call_C_drag alpha) self) = Ok v /\
          float_lt M v = true).
Proof.
  intros Ha0 HPD0 Hwf HPDa.
  destruct (mul_zero_nonneg (PDa self) HPDa) as [s0 Hs0].
  exists (B64.add (PD0 self) (S754_zero s0)).
  pose proof (add_zero_not_nan (PD0 self) s0 HPD0) as Hv0.
  split; [rewrite (C_drag_at_alpha_0 k self Ha0), Hs0; reflexivity |].
  split; [exact Hv0 |]. split.
  - intros alpha v Hv.
    pose proof (C_drag_not_below k self alpha v s0 HPD0 Hwf HPDa Hv) as Hlt.
    split; [exact Hlt |]. intros Hnan. now apply not_lt_is_le.
  - intros Hpos M HM. exists (S754_infinity false), (S754_infinity false).
    split; [now apply C_drag_at_plus_infinity |].
    destruct M as [s | | | s m e]; try discriminate HM; reflexivity.
Qed.

Lemma C_drag_minimal_at_alpha_0_and_unbounded_witness :
  B64.is_finite (alpha_0 (new (F:=B64.t) Cls.Model)) = true
  /\ B64.is_finite (PD0 (new (F:=B64.t) Cls.Model)) = true
  /\ well_formed (PD0 (new (F:=B64.t) Cls.Model)) = true
  /\ is_nonneg_finite (PDa (new (F:=B64.t) Cls.Model)) = true
  /\ is_pos_finite (PDa (new (F:=B64.t) Cls.Model)) = true
  /\ B64.is_finite two_pow_600 = true
  /\ exists v0 : B64.t,
       value (invoke Cls.Model
                (Call_C_drag (alpha_0 (new (F:=B64.t) Cls.Model)))
                (new Cls.Model)) = Ok v0 /\
       is_nan v0 = false /\
       (exists v : B64.t,
          value (invoke Cls.Model
                   (Call_C_drag
                      (B64.add (alpha_0 (new (F:=B64.t) Cls.Model))
                         (of_int 1)))
                   (new Cls.Model)) = Ok v /\
          float_lt v v0 = false /\ float_le v0 v = true)
       /\ (exists alpha v : B64.t,
             value (invoke Cls.Model (Call_C_drag alpha) (new Cls.Model)) =
             Ok v /\
             float_lt two_pow_600 v = true).
Proof.
  assert (H0 : B64.is_finite (alpha_0 (new (F:=B64.t) Cls.Model)) = true)
    by (vm_compute; reflexivity).
  assert (Hd : B64.is_finite (PD0 (new (F:=B64.t) Cls.Model)) = true)
    by (vm_compute; reflexivity).
  assert (Hw : well_formed (PD0 (new (F:=B64.t) Cls.Model)) = true)
    by (vm_compute; reflexivity).
  assert (Ha : is_nonneg_finite (PDa (new (F:=B64.t) Cls.Model)) = true)
    by (vm_compute; reflexivity).
  assert (Hp : is_pos_finite (PDa (new (F:=B64.t) Cls.Model)) = true)
    by (vm_compute; reflexivity).
  assert (HM : B64.is_finite two_pow_600 = true) by reflexivity.
  split; [exact H0 |]. split; [exact Hd |]. split; [exact Hw |].
  split; [exact Ha |]. split; [exact Hp |]. split; [exact HM |].
  destruct (C_drag_minimal_at_alpha_0_and_unbounded Cls.Model
              (new Cls.Model) H0 Hd Hw Ha)
    as (v0 & Hv0 & Hnan0 & Hmin & Hunb).
  exists v0. split; [exact Hv0 |]. split; [exact Hnan0 |]. split.
  - destruct (C_drag_default_returns_one_off_alpha_0) as (v & Hv & Hnan).
    exists v. split; [exact Hv |].
    destruct (Hmin _ v Hv) as [Hlt Hle].
    split; [exact Hlt | exact (Hle Hnan)].
  - exact (Hunb Hp two_pow_600 HM).
Defined.

(** On the default instance of each of the ten classes, a value returned
    by [C_drag] is never below the class's [PD0], which is above zero:
    the drag factor is never negative. *)
Theorem C_drag_positive_on_defaults (k : Cls.t) (alpha v : B64.t) :
  value (invoke k (Call_C_drag alpha) (new k)) = Ok v ->
  float_lt (S754_zero false) (PD0 (new (F:=B64.t) k)) = true
  /\ float_lt v (PD0 (new (F:=B64.t) k)) = false.
Proof.
  intros Hv.
  assert (Hd : B64.is_finite (PD0 (new (F:=B64.t) k)) = true)
    by (destruct k; vm_compute; reflexivity).
  assert (Hw : well_formed (PD0 (new (F:=B64.t) k)) = true)
    by (destruct k; vm_compute; reflexivity).
  assert (Ha : is_nonneg_finite (PDa (new (F:=B64.t) k)) = true)
    by (destruct k; vm_compute; reflexivity).
  assert (Hpos : float_lt (S754_zero false) (PD0 (new (F:=B64.t) k)) = true)
    by (destruct k; vm_compute; reflexivity).
  split; [exact Hpos |].
  pose proof (C_drag_not_below k (new k) alpha v false Hd Hw Ha Hv) as Hlt.
  destruct (PD0 (new (F:=B64.t) k)) as [s | s | | s m e];
    try discriminate Hd; [discriminate Hpos | exact Hlt].
Qed.

Lemma C_drag_positive_on_defaults_witness :
  value (invoke Cls.BuzzModel
           (Call_C_drag (alpha_0 (new (F:=B64.t) Cls.BuzzModel)))
           (new Cls.BuzzModel)) = Ok (PD0 (new (F:=B64.t) Cls.BuzzModel))
  /\ float_lt (S754_zero false) (PD0 (new (F:=B64.t) Cls.BuzzModel)) = true
  /\ float_lt (PD0 (new (F:=B64.t) Cls.BuzzModel))
       (PD0 (new (F:=B64.t) Cls.BuzzModel)) = false.
Proof.
  assert (Hv : value (invoke Cls.BuzzModel
                        (Call_C_drag (alpha_0 (new (F:=B64.t) Cls.BuzzModel)))
                        (new Cls.BuzzModel)) =
               Ok (PD0 (new (F:=B64.t) Cls.BuzzModel)))
    by (vm_compute; reflexivity).
  split; [exact Hv |].
  exact (C_drag_positive_on_defaults Cls.BuzzModel _ _ Hv).
Defined.

(** On the default instance of each of the ten classes, the lift factor
    at an angle of attack that is not negative is never below the class's
    [PL0], which is above zero. *)
Theorem C_lift_at_least_PL0_on_defaults (k : Cls.t) (alpha : B64.t) :
  not_negative alpha = true ->
  exists v : B64.t,
    value (invoke k (Call_C_lift alpha) (new k)) = Ok v /\
    float_lt (S754_zero false) (PL0 (new (F:=B64.t) k)) = true /\
    float_lt v (PL0 (new (F:=B64.t) k)) = false.
Proof.
  intros Halpha.
  exists (B64.add (PL0 (new (F:=B64.t) k))
            (B64.mul (PLa (new (F:=B64.t) k)) alpha)).
  assert (Hd : B64.is_finite (PL0 (new (F:=B64.t) k)) = true)
    by (destruct k; vm_compute; reflexivity).
  assert (Hw : well_formed (PL0 (new (F:=B64.t) k)) = true)
    by (destruct k; vm_compute; reflexivity).
  assert (Ha : is_nonneg_finite (PLa (new (F:=B64.t) k)) = true)
    by (destruct k; vm_compute; reflexivity).
  assert (Hpos : float_lt (S754_zero false) (PL0 (new (F:=B64.t) k)) = true)
    by (destruct k; vm_compute; reflexivity).
  split.
  { rewrite invoke_Model_methods. cbn [Model_methods].
    rewrite C_lift_runs. reflexivity. }
  split; [exact Hpos |].
  pose proof (add_not_below (PL0 (new (F:=B64.t) k))
                (B64.mul (PLa (new (F:=B64.t) k)) alpha) false Hw Hd
                (mul_not_negative _ _ Ha Halpha)) as Hlt.
  destruct (PL0 (new (F:=B64.t) k)) as [s | s | | s m e];
    try discriminate Hd; [discriminate Hpos | exact Hlt].
Qed.

Lemma C_lift_at_least_PL0_on_defaults_witness :
  not_negative (dec (F:=B64.t) 1 1) = true
  /\ exists v : B64.t,
       value (invoke Cls.QuarterModel (Call_C_lift (dec 1 1))
                (new Cls.QuarterModel)) = Ok v /\
       float_lt (S754_zero false) (PL0 (new (F:=B64.t) Cls.QuarterModel)) =
         true /\
       float_lt v (PL0 (new (F:=B64.t) Cls.QuarterModel)) = false.
Proof.
  assert (Halpha : not_negative (dec (F:=B64.t) 1 1) = true)
    by (vm_compute; reflexivity).
  split; [exact Halpha |].
  exact (C_lift_at_least_PL0_on_defaults Cls.QuarterModel (dec 1 1) Halpha).
Defined.

(** ** Spin damping *)



(** Changing the sign of a factor changes the sign of the rounded
    product and nothing else. *)
Lemma mul_opp_r (x y : B64.t) : B64.mul x (SFopp y) = SFopp (B64.mul x y).
Proof.
  destruct x as [sx | sx | | sx mx ex], y as [sy | sy | | sy my ey];
    cbn [B64.mul SFmul SFopp]; try reflexivity;
    try (destruct sx, sy; reflexivity).
  unfold binary_round_aux.
  destruct (shr_fexp B64.prec B64.emax (Zpos (mx * my)) (ex + ey) loc_Exact)
    as [mrs' e'].
  destruct (shr_fexp B64.prec B64.emax
              (round_nearest_even (shr_m mrs') (loc_of_shr_record mrs'))
              e' loc_Exact) as [mrs'' e''].
  destruct (shr_m mrs'') as [| p | p]; [| | reflexivity].
  - destruct sx, sy; reflexivity.
  - destruct (e'' <=? B64.emax - B64.prec)%Z; destruct sx, sy; reflexivity.
Qed.

(** The spin-down factor is an odd function of [wz], roundings included:
    for every model instance, [C_z(-wz)] is the float [-C_z(wz)]. *)
Theorem C_z_is_odd (k : Cls.t) (self : Model B64.t) (wz : B64.t) :
  exists v : B64.t,
    value (invoke k (Call_C_z wz) self) = Ok v /\
    value (invoke k (Call_C_z (SFopp wz)) self) = Ok (SFopp v).
Proof.
  exists (B64.mul (PTzwz self) wz).
  rewrite !invoke_Model_methods. cbn [Model_methods].
  rewrite !C_z_runs. cbn [value fst fmul binary64_float].
  split; [reflexivity |]. f_equal. apply mul_opp_r.
Qed.

(** ** Symmetry of the drag, on binary64 floats *)

(** C10, as stated, fails on [Model(PD0=0.0, PDa=1.0, alpha_0=1.0)] with
    [eps = 2.0 ** -53]: [alpha_0 + eps] rounds to [alpha_0] and the drag
    there is [0.0], while [alpha_0 - eps] is exact and the drag there is
    [2.0 ** -106]. *)
Lemma C_drag_not_symmetric_on_floats :
  B64.add (alpha_0 Model_unit_drag) two_pow_minus_53 =
    alpha_0 Model_unit_drag
  /\ value (invoke Cls.Model
              (Call_C_drag (B64.add (alpha_0 Model_unit_drag)
                              two_pow_minus_53))
              Model_unit_drag) = Ok (S754_zero false)
  /\ value (invoke Cls.Model
              (Call_C_drag (B64.sub (alpha_0 Model_unit_drag)
                              two_pow_minus_53))
              Model_unit_drag) = Ok (S754_finite false (2 ^ 52) (-158))
  /\ float_lt (S754_zero false) (S754_finite false (2 ^ 52) (-158)) = true.
Proof. vm_compute. repeat split. Qed.

Lemma pow_2_even (d : B64.t) : B64.pow_2 (SFopp d) = B64.pow_2 d.
Proof. destruct d as [s | s | | s m e]; reflexivity. Qed.

(** C10, as the code has it. For every model instance, the drag depends
    on the angle of attack through the float [alpha - alpha_0] only, and
    is an even function of it: when the differences [alpha' - alpha_0] and
    [alpha - alpha_0], as float arithmetic computes them, are opposite,
    [C_drag(alpha')] and [C_drag(alpha)] have the same outcome (the same
    value, or [OverflowError] both). *)
Theorem C_drag_symmetric_about_alpha_0
    (k : Cls.t) (self : Model B64.t) (alpha alpha' : B64.t) :
  B64.sub alpha' (alpha_0 self) = SFopp (B64.sub alpha (alpha_0 self)) ->
  value (invoke k (Call_C_drag alpha') self) =
  value (invoke k (Call_C_drag alpha) self).
Proof.
  intros Hopp. rewrite !invoke_C_drag.
  cbn [fsub fadd fmul pow2 binary64_float].
  now rewrite Hopp, pow_2_even.
Qed.

Lemma C_drag_symmetric_about_alpha_0_witness :
  B64.sub (S754_zero false) (alpha_0 (new (F:=B64.t) Cls.Model)) =
    SFopp (B64.sub (B64.add (alpha_0 (new (F:=B64.t) Cls.Model))
                      (alpha_0 (new (F:=B64.t) Cls.Model)))
             (alpha_0 (new (F:=B64.t) Cls.Model)))
  /\ value (invoke Cls.Model (Call_C_drag (F:=B64.t) (S754_zero false))
              (new Cls.Model)) =
     value (invoke Cls.Model
              (Call_C_drag (B64.add (alpha_0 (new (F:=B64.t) Cls.Model))
                              (alpha_0 (new (F:=B64.t) Cls.Model))))
              (new Cls.Model)).
Proof.
  assert (Hopp : B64.sub (S754_zero false)
                   (alpha_0 (new (F:=B64.t) Cls.Model)) =
                 SFopp (B64.sub
                          (B64.add (alpha_0 (new (F:=B64.t) Cls.Model))
                             (alpha_0 (new (F:=B64.t) Cls.Model)))
                          (alpha_0 (new (F:=B64.t) Cls.Model))))
    by (vm_compute; reflexivity).
  split; [exact Hopp |].
  exact (C_drag_symmetric_about_alpha_0 Cls.Model (new Cls.Model) _ _ Hopp).
Defined.

(** * The disc edge of the example script *)

Module Example2Facts.
Import Example2.
Local Open Scope R_scope.

(** ** Array operations *)

Lemma arange_length (n : nat) : length (arange n) = n.
Proof. unfold arange. now rewrite length_map, length_seq. Qed.

Lemma set_last_length (y : list R) (v : R) :
  length (set_last y v) = length y.
Proof.
  destruct y as [| a y]; [reflexivity |].
  unfold set_last. rewrite length_app.
  assert (Hne : a :: y <> []) by discriminate.
  destruct (exists_last Hne) as (l & b & ->).
  rewrite removelast_last, length_app. reflexivity.
Qed.

Lemma times_ones (radii : R) (f : R -> R) (l : list R) :
  times (map (fun o => radii * o) (repeat 1 (length l))) (map f l) =
  map (fun a => radii * 1 * f a) l.
Proof.
  unfold times. induction l as [| a l IH]; [reflexivity |].
  cbn [length repeat map combine fst snd]. now rewrite IH.
Qed.

Lemma rows_zeros (f g : R -> R) (l : list R) :
  rows (map f l) (map g l) (repeat 0 (length l)) =
  map (fun a => (f a, g a, 0)) l.
Proof.
  unfold rows. induction l as [| a l IH]; [reflexivity |].
  cbn [length repeat map combine fst snd]. now rewrite IH.
Qed.

(** ** [np.linspace] *)

Lemma linspace_negative (start stop : R) (n : Z) :
  (n < 0)%Z -> linspace start stop n = ValueError.
Proof.
  intros Hn. unfold linspace.
  now destruct (Z.ltb_spec n 0) as [_ | Hge]; [| lia].
Qed.

Lemma linspace_length (start stop : R) (n : Z) :
  (0 <= n)%Z ->
  exists alpha : list R,
    linspace start stop n = Array alpha /\ length alpha = Z.to_nat n.
Proof.
  intros Hn. unfold linspace.
  destruct (Z.ltb_spec n 0) as [Hlt | _]; [lia |].
  eexists. split; [reflexivity |].
  destruct (1 <? Z.to_nat n)%nat; rewrite ?set_last_length;
    destruct (0 <? Z.to_nat n - 1)%nat;
    now rewrite length_map, arange_length.
Qed.

(** ** [get_edge] *)

(** The point of the edge at angle [a]. *)
Lemma get_edge_points (radii : R) (n : Z) (alpha : list R) :
  linspace 0 (2 * PI) n = Array alpha ->
  length alpha = Z.to_nat n ->
  get_edge radii n =
  Array (map (fun a => (radii * 1 * cos a, radii * 1 * sin a, 0)) alpha).
Proof.
  intros Hlin Hlen. unfold get_edge, ones, zeros.
  rewrite Hlin, <- Hlen.
  rewrite (times_ones radii cos), (times_ones radii sin).
  now rewrite rows_zeros.
Qed.

(** A negative [n] is refused with [ValueError]; otherwise [get_edge]
    returns an array of exactly [n] points (none for [n = 0]). *)
Theorem get_edge_size (radii : R) (n : Z) :
  if (n <? 0)%Z then get_edge radii n = ValueError
  else exists pts : list vec3,
         get_edge radii n = Array pts /\ length pts = Z.to_nat n.
Proof.
  destruct (Z.ltb_spec n 0) as [Hlt | Hge].
  - unfold get_edge. now rewrite linspace_negative.
  - destruct (linspace_length 0 (2 * PI) n Hge) as (alpha & Hlin & Hlen).
    eexists. split; [exact (get_edge_points radii n alpha Hlin Hlen) |].
    now rewrite length_map.
Qed.
End Example2Facts.
